(** * libentangle: the signaling core, embedded and verified

    A shallow embedding of the rendezvous server
    ([CommunitiesManager], package [handlers]) and of the client state
    machine ([ClientManager], package [handlers]; the dispatch of
    [SignalingClient.HandleConn], package [signaling]).

    Go maps are [gmap]s, slices are lists, a method that mutates its
    receiver is a state transformer, and every call that leaves the
    repository (the websocket transport, the peer-connection stack,
    [encoding/json], the order in which [range] visits a map) is a field
    of an interface the development is parametric in. *)

From stdpp Require Import gmap strings list fin_maps.

Set Default Proof Using "Type".

(** ** Go values, results and a state monad *)

(** A Go [error]: [None] is [nil]. *)
Definition error : Type := option string.
Definition nil : error := None.

(** What a call yields: it returns a value, or the goroutine panics. *)
Inductive res (A : Type) : Type :=
| Ret (a : A)
| Panic.
Arguments Ret {A} a.
Arguments Panic {A}.

(** A method with receiver state [S]: the receiver is mutated in place, so
    the state reached is part of every outcome, also of a returned error
    and of a panic. *)
Definition M (S A : Type) : Type := S → S * res A.

Definition ret {S A} (a : A) : M S A := λ s, (s, Ret a).
Definition panic {S A} : M S A := λ s, (s, Panic).
Definition bind {S A B} (c : M S A) (k : A → M S B) : M S B :=
  λ s, match c s with
       | (s', Ret a) => k a s'
       | (s', Panic) => (s', Panic)
       end.
Definition gets {S A} (f : S → A) : M S A := λ s, (s, Ret (f s)).
Definition modify {S} (f : S → S) : M S unit := λ s, (f s, Ret tt).

(** [if err := c; err != nil { return err }] followed by [k]. *)
Definition check {S} (c : M S error) (k : M S error) : M S error :=
  bind c (λ e, match e with Some msg => ret (Some msg) | None => k end).

Global Instance M_ret {S} : MRet (M S) := λ A, @ret S A.
Global Instance M_bind {S} : MBind (M S) := λ A B k c, @bind S A B c k.

(** ** The wire vocabulary *)

(** Modelled from the spec: the message set of package
    [pkg/api/websockets/v1] (constructors [NewApplication], [NewRejection],
    [NewIntroduction], ...), which is not among the sources; one
    constructor per opcode with the fields of the schema table, payloads
    as opaque strings. *)
Inductive Message : Type :=
| Application (community mac : string)
| Acceptance
| Rejection
| Ready (mac : string)
| Introduction (mac : string)
| Offer (payload senderMac receiverMac : string)
| Answer (payload senderMac receiverMac : string)
| Candidate (payload senderMac receiverMac : string)
| Exited (mac : string)
| Resignation (mac : string).

Global Instance Message_eq_dec : EqDecision Message.
Proof. solve_decision. Defined.

(** A [websocket.Conn] value.  The server stores connections by value,
    so a lookup of an absent key yields the zero value. *)
Inductive Conn : Type :=
| ZeroConn
| LiveConn (id : nat).

Global Instance Conn_eq_dec : EqDecision Conn.
Proof. solve_decision. Defined.

(** One call of [wsjson.Write]: the connection written to, the message,
    and what the call yielded.  [w_to] is bookkeeping of the model only:
    the mac the message is meant for (the key the connection was looked
    up under, or the applicant for a reply on its own connection). *)
Record Write : Type := mkWrite {
  w_to : string;
  w_conn : Conn;
  w_msg : Message;
  w_res : res error
}.

(** The transport: what a write yields may depend on everything written
    so far. *)
Class Transport : Type := {
  wsjson_Write : list Write → Conn → Message → res error
}.

(** The Go runtime: [range] over a map visits every entry once, in an
    order that may change from one loop to the next ([tick] counts the
    loops executed so far). *)
Class MapRange : Type := {
  range_order : ∀ {V : Type}, nat → gmap string V → list (string * V);
  range_order_perm : ∀ {V : Type} (tick : nat) (m : gmap string V),
      range_order tick m ≡ₚ map_to_list m
}.

(** ** The rendezvous server *)

Module Server.

Record CommunitiesManager : Type := mkManager {
  communities : gmap string (list string);
  macs : gmap string Conn;
  introducedPeers : list (string * string)
}.

Definition NewCommunitiesManager : CommunitiesManager :=
  {| communities := ∅; macs := ∅; introducedPeers := [] |}.

(** The manager together with what the outside observes of it. *)
Record World : Type := mkWorld {
  mgr : CommunitiesManager;
  wire : list Write;
  ticks : nat
}.

Definition boot : World := {| mgr := NewCommunitiesManager; wire := []; ticks := 0 |}.

Definition set_communities (f : gmap string (list string) → gmap string (list string))
    : M World unit :=
  modify (λ w, {| mgr := {| communities := f (communities (mgr w));
                            macs := macs (mgr w);
                            introducedPeers := introducedPeers (mgr w) |};
                  wire := wire w; ticks := ticks w |}).

Definition set_macs (f : gmap string Conn → gmap string Conn) : M World unit :=
  modify (λ w, {| mgr := {| communities := communities (mgr w);
                            macs := f (macs (mgr w));
                            introducedPeers := introducedPeers (mgr w) |};
                  wire := wire w; ticks := ticks w |}).

Definition set_introducedPeers (f : list (string * string) → list (string * string))
    : M World unit :=
  modify (λ w, {| mgr := {| communities := communities (mgr w);
                            macs := macs (mgr w);
                            introducedPeers := f (introducedPeers (mgr w)) |};
                  wire := wire w; ticks := ticks w |}).

(** [m.communities[c]]: the roster, the nil slice for an absent key. *)
Definition roster (m : CommunitiesManager) (c : string) : list string :=
  default [] (communities m !! c).

(** [m.macs[mac]]: the connection, the zero value for an absent key. *)
Definition sink (m : CommunitiesManager) (mac : string) : Conn :=
  default ZeroConn (macs m !! mac).

Section Handlers.
Context `{!Transport, !MapRange}.

(** [wsjson.Write(ctx, conn, msg)] *)
Definition write (to : string) (conn : Conn) (msg : Message) : M World error :=
  λ w, let r := wsjson_Write (wire w) conn msg in
       ({| mgr := mgr w;
           wire := wire w ++ [mkWrite to conn msg r];
           ticks := ticks w |}, r).

Definition HandleApplication (community mac : string) (conn : Conn) : M World error :=
  m ← gets mgr;
  if decide (is_Some (macs m !! mac)) then
    check (write mac conn Rejection) $
    ret nil
  else
    set_macs <[mac := conn]>;;
    m ← gets mgr;
    if decide (is_Some (communities m !! community)) then
      set_communities (λ cs, <[community := default [] (cs !! community) ++ [mac]]> cs);;
      check (write mac conn Acceptance) $
      ret nil
    else
      set_communities (λ cs, <[community := default [] (cs !! community) ++ [mac]]> cs);;
      check (write mac conn Acceptance) $
      ret nil.

(** The inner loop of [getCommunity]: is [mac] in the roster? *)
Fixpoint scan_roster (element : list string) (mac : string) : bool :=
  match element with
  | [] => false
  | x :: rest => if decide (x = mac) then true else scan_roster rest mac
  end.

(** The outer loop of [getCommunity], over the entries in the order the
    runtime visits them. *)
Fixpoint scan_communities (entries : list (string * list string)) (mac : string)
    : option string :=
  match entries with
  | [] => None
  | (key, element) :: rest =>
      if scan_roster element mac then Some key else scan_communities rest mac
  end.

Definition getCommunity (mac : string) : M World (string * error) :=
  λ w, let entries := range_order (ticks w) (communities (mgr w)) in
       ({| mgr := mgr w; wire := wire w; ticks := S (ticks w) |},
        Ret match scan_communities entries mac with
            | Some key => (key, nil)
            | None => (""%string,
                       Some "This mac is not part of any community so far!"%string)
            end).

Definition introduce (firstMac secondMac : string) : M World unit :=
  set_introducedPeers (λ ps, ps ++ [(firstMac, secondMac)]).

Fixpoint introduced_in (pairs : list (string * string)) (firstMac secondMac : string)
    : bool :=
  match pairs with
  | [] => false
  | p :: rest =>
      if decide (p.1 = firstMac ∧ p.2 = secondMac) then true
      else if decide (p.1 = secondMac ∧ p.2 = firstMac) then true
      else introduced_in rest firstMac secondMac
  end.

Definition introduced (m : CommunitiesManager) (firstMac secondMac : string) : bool :=
  introduced_in (introducedPeers m) firstMac secondMac.

Fixpoint keep_unrelated (pairs : list (string * string)) (mac : string)
    : list (string * string) :=
  match pairs with
  | [] => []
  | p :: rest =>
      if decide (p.1 = mac ∨ p.2 = mac) then keep_unrelated rest mac
      else p :: keep_unrelated rest mac
  end.

Definition removeAssociatedPairs (mac : string) : M World unit :=
  set_introducedPeers (λ ps, keep_unrelated ps mac).

(** The loop of [HandleReady] over the roster it was started on. *)
Fixpoint HandleReady_loop (readyMac : string) (members : list string) : M World error :=
  match members with
  | [] => ret nil
  | mac :: rest =>
      if decide (mac ≠ readyMac) then
        m ← gets mgr;
        let receiver := sink m mac in
        if negb (introduced m readyMac mac) then
          check (write mac receiver (Introduction readyMac))
            (introduce readyMac mac;;
             HandleReady_loop readyMac rest)
        else HandleReady_loop readyMac rest
      else HandleReady_loop readyMac rest
  end.

Definition HandleReady (mac : string) (conn : Conn) : M World error :=
  r ← getCommunity mac;
  match r.2 with
  | Some msg => ret (Some msg)
  | None =>
      m ← gets mgr;
      HandleReady_loop mac (roster m r.1)
  end.

(** [HandleOffer], [HandleAnswer] and [HandleCandidate] have one body. *)
Definition relay (receiverMac : string) (msg : Message) : M World error :=
  m ← gets mgr;
  let receiver := sink m receiverMac in
  check (write receiverMac receiver msg) $
  ret nil.

Definition HandleOffer (payload senderMac receiverMac : string) : M World error :=
  relay receiverMac (Offer payload senderMac receiverMac).

Definition HandleAnswer (payload senderMac receiverMac : string) : M World error :=
  relay receiverMac (Answer payload senderMac receiverMac).

Definition HandleCandidate (payload senderMac receiverMac : string) : M World error :=
  relay receiverMac (Candidate payload senderMac receiverMac).

(** The index [deleteCommunity] computes: the last position holding
    [str], 0 when there is none. *)
Fixpoint last_index (s : list string) (str : string) (index elementIndex : nat) : nat :=
  match s with
  | [] => elementIndex
  | element :: rest =>
      last_index rest str (S index)
        (if decide (element = str) then index else elementIndex)
  end.

(** [append(s[:i], s[i+1:]...)]; slicing past the length panics. *)
Definition deleteCommunity (s : list string) (str : string) : res (list string) :=
  let elementIndex := last_index s str 0 0 in
  if decide (S elementIndex ≤ length s)
  then Ret (take elementIndex s ++ drop (S elementIndex) s)
  else Panic.

Fixpoint HandleExited_loop (exitedMac : string) (members : list string) : M World error :=
  match members with
  | [] => ret nil
  | mac :: rest =>
      if decide (mac ≠ exitedMac) then
        m ← gets mgr;
        let receiver := sink m mac in
        check (write mac receiver (Resignation exitedMac)) $
        HandleExited_loop exitedMac rest
      else HandleExited_loop exitedMac rest
  end.

Definition HandleExited (mac : string) : M World error :=
  r ← getCommunity mac;
  match r.2 with
  | Some msg => ret (Some msg)
  | None =>
      let community := r.1 in
      removeAssociatedPairs mac;;
      m ← gets mgr;
      check (HandleExited_loop mac (roster m community))
        (set_macs (delete mac);;
         set_macs (delete mac);;
         m ← gets mgr;
         match deleteCommunity (roster m community) mac with
         | Panic => panic
         | Ret s =>
             set_communities <[community := s]>;;
             m ← gets mgr;
             (if decide (length (roster m community) = 0)
              then set_communities (delete community)
              else ret tt);;
             ret nil
         end)
  end.

(** Modelled from the spec: the per-connection receive loop of the
    rendezvous server, which is not among the sources.  It drives the
    manager by calling, for a message read from connection [conn], the
    handler that takes it; a message no handler takes leaves the manager
    alone. *)
Definition handle (conn : Conn) (msg : Message) : M World error :=
  match msg with
  | Application community mac => HandleApplication community mac conn
  | Ready mac => HandleReady mac conn
  | Offer p s r => HandleOffer p s r
  | Answer p s r => HandleAnswer p s r
  | Candidate p s r => HandleCandidate p s r
  | Exited mac => HandleExited mac
  | _ => ret nil
  end.

(** Any sequence of handler calls, each with the connection its message
    arrived on.  The manager is shared and mutated in place, so the next
    call starts from the state the previous one left, whatever it
    yielded. *)
Fixpoint run (events : list (Conn * Message)) (w : World) : World :=
  match events with
  | [] => w
  | (conn, msg) :: rest => run rest (handle conn msg w).1
  end.

End Handlers.

(** *** What the server is expected to maintain *)

(** [mac] is on some roster. *)
Definition registered (m : CommunitiesManager) (mac : string) : Prop :=
  ∃ c, mac ∈ roster m c.

(** Rosters and endpoints agree, no mac is on a roster twice or on two
    rosters, and no community is kept with an empty roster. *)
Record consistent (m : CommunitiesManager) : Prop := mkConsistent {
  roster_iff_endpoint : ∀ mac, registered m mac ↔ is_Some (macs m !! mac);
  roster_NoDup : ∀ c, NoDup (roster m c);
  roster_disjoint : ∀ c1 c2 mac, mac ∈ roster m c1 → mac ∈ roster m c2 → c1 = c2;
  roster_nonempty : ∀ c, communities m !! c ≠ Some []
}.

(** A write that delivered an Introduction between [a] and [b]: the
    message names one of them and went to the other. *)
Definition introduces (a b : string) (x : Write) : Prop :=
  w_res x = Ret nil ∧
  ((w_msg x = Introduction a ∧ w_to x = b) ∨ (w_msg x = Introduction b ∧ w_to x = a)).

Global Instance introduces_dec a b x : Decision (introduces a b x).
Proof.
  unfold introduces.
  assert (EqDecision (res error)) by (unfold error; solve_decision).
  apply _.
Defined.

(** How many Introductions between [a] and [b] a wire log holds. *)
Definition introductions (a b : string) (log : list Write) : nat :=
  length (filter (introduces a b) log).

(** [out] is [w] after one write of [msg] on [conn] and nothing else, the
    result being the result of that write. *)
Definition wrote_only `{!Transport} (w : World) (to : string) (conn : Conn)
    (msg : Message) (out : World * res error) : Prop :=
  mgr out.1 = mgr w ∧
  wire out.1 = wire w ++ [mkWrite to conn msg (wsjson_Write (wire w) conn msg)] ∧
  out.2 = wsjson_Write (wire w) conn msg.

(** What was written while going from [w] to [w']. *)
Definition written (w w' : World) : list Write :=
  drop (length (wire w)) (wire w').

(** An Exited message ends the lifetime of the pairs of its mac. *)
Definition is_Exited (msg : Message) : bool :=
  match msg with Exited _ => true | _ => false end.

(** No peer leaves during [events]. *)
Definition nobody_exits (events : list (Conn * Message)) : bool :=
  forallb (λ e, negb (is_Exited e.2)) events.

(** The pair is on the ledger, in one orientation or the other. *)
Definition recorded (m : CommunitiesManager) (a b : string) : Prop :=
  (a, b) ∈ introducedPeers m ∨ (b, a) ∈ introducedPeers m.

(** Going from [w] to [w'] respected the ledger: the wire only grew, a
    pair recorded in [w] stayed recorded and was sent no Introduction, and
    any other pair was sent at most one, being recorded once it was. *)
Definition ledger_respected (w w' : World) : Prop :=
  ∃ new, wire w' = wire w ++ new ∧
    ∀ a b,
      (recorded (mgr w) a b → recorded (mgr w') a b ∧ introductions a b new = 0) ∧
      introductions a b new ≤ 1 ∧
      (introductions a b new = 1 → recorded (mgr w') a b).

(** The Resignation the server writes to [member] when [mac] leaves. *)
Definition resignation_to (m : CommunitiesManager) (mac member : string) : Write :=
  mkWrite member (sink m member) (Resignation mac) (Ret nil).

Global Instance recorded_dec m a b : Decision (recorded m a b).
Proof. unfold recorded. apply _. Defined.

(** The members a Ready of [readyMac] is to be introduced to: the others
    on the roster that the ledger does not pair with it yet. *)
Definition newcomers (m : CommunitiesManager) (readyMac : string) (members : list string)
    : list string :=
  filter (λ x, x ≠ readyMac ∧ ¬ recorded m readyMac x) members.

(** The Introduction of [readyMac] the server writes to [member]. *)
Definition introduction_to (m : CommunitiesManager) (readyMac member : string) : Write :=
  mkWrite member (sink m member) (Introduction readyMac) (Ret nil).

(** The ledger holds no pair twice, in neither orientation (so no mac
    with itself), and only pairs of two members of one roster. *)
Record ledger_sound (m : CommunitiesManager) : Prop := mkLedgerSound {
  ledger_NoDup : NoDup (introducedPeers m);
  ledger_one_orientation : ∀ a b, (a, b) ∈ introducedPeers m → (b, a) ∉ introducedPeers m;
  ledger_live : ∀ a b, (a, b) ∈ introducedPeers m → ∃ c, a ∈ roster m c ∧ b ∈ roster m c
}.

(** The error [getCommunity] returns for a mac on no roster. *)
Definition unknown_mac : res error :=
  Ret (Some "This mac is not part of any community so far!"%string).

End Server.

(** ** The client state machine *)

Module Client.

(** A [webrtc.SessionDescription] and a [webrtc.ICECandidateInit] (its
    [Candidate] field); both opaque to the signaling code. *)
Definition SessionDescription : Type := string.
Definition ICECandidateInit : Type := string.

(** The calls the handlers make on a [*webrtc.PeerConnection]. *)
Inductive Call : Type :=
| CreateDataChannel
| CreateOffer
| CreateAnswer
| SetLocalDescription (sd : SessionDescription)
| SetRemoteDescription (sd : SessionDescription)
| AddICECandidate (candidate : ICECandidateInit).

Global Instance Call_eq_dec : EqDecision Call.
Proof. solve_decision. Defined.

(** A peer connection as the handlers see it: what [RemoteDescription()]
    returns, and the calls made on it so far, each with its error. *)
Record PeerConnection : Type := mkPC {
  pc_id : nat;
  remoteDescription : option SessionDescription;
  calls : list (Call * error)
}.

(** A [*webrtc.DataChannel]. *)
Record DataChannel : Type := mkDC { dc_id : nat }.

Record peer : Type := mkPeer {
  connection : PeerConnection;
  channel : option DataChannel;
  candidates : list ICECandidateInit
}.

Record ClientManager : Type := mkClient {
  peers : gmap string peer;
  mac : string
}.

Definition NewClientManager : ClientManager := {| peers := ∅; mac := "" |}.

(** One call of [DataChannel.Send]: the peer-map key it was made for, the
    channel, the bytes and the error. *)
Record Sent : Type := mkSent {
  s_key : string;
  s_channel : DataChannel;
  s_data : string;
  s_err : error
}.

(** The peer-connection stack and [encoding/json], which the signaling
    code treats as opaque: a call fails or not as the stack decides, from
    the state of the object it is made on. *)
Class PeerStack : Type := {
  json_Unmarshal : string → SessionDescription + string;
  json_Marshal : SessionDescription → string + string;
  json_Marshal_wrapped : string → string → string + string;
  webrtc_NewPeerConnection : nat → error;
  pc_CreateDataChannel : PeerConnection → DataChannel + string;
  pc_CreateOffer : PeerConnection → SessionDescription + string;
  pc_CreateAnswer : PeerConnection → SessionDescription + string;
  pc_SetLocalDescription : PeerConnection → SessionDescription → error;
  pc_SetRemoteDescription : PeerConnection → SessionDescription → error;
  pc_AddICECandidate : PeerConnection → ICECandidateInit → error;
  dc_Send : list Sent → DataChannel → string → error
}.

(** The manager and what surrounds it in [SignalingClient.HandleConn]:
    the websocket [conn] and the [uuid] minted for the session, the
    [sync.WaitGroup] counter, and what the outside observes. *)
Record World : Type := mkWorld {
  cm : ClientManager;
  conn : Conn;
  uuid : string;
  wg : nat;
  wire : list Write;
  sent : list Sent;
  created : nat;
  connected : nat;
  ticks : nat
}.

Definition boot (c : Conn) (id : string) : World :=
  {| cm := NewClientManager; conn := c; uuid := id; wg := 0; wire := [];
     sent := []; created := 0; connected := 0; ticks := 0 |}.

Definition with_cm (f : ClientManager → ClientManager) (w : World) : World :=
  {| cm := f (cm w); conn := conn w; uuid := uuid w; wg := wg w; wire := wire w;
     sent := sent w; created := created w; connected := connected w; ticks := ticks w |}.

Definition with_wg (f : nat → nat) (w : World) : World :=
  {| cm := cm w; conn := conn w; uuid := uuid w; wg := f (wg w); wire := wire w;
     sent := sent w; created := created w; connected := connected w; ticks := ticks w |}.

Definition set_peers (f : gmap string peer → gmap string peer) : M World unit :=
  modify (with_cm (λ m, {| peers := f (peers m); mac := mac m |})).

Definition set_mac (id : string) : M World unit :=
  modify (with_cm (λ m, {| peers := peers m; mac := id |})).

(** [wg.Add(1)] and [wg.Done()]; a counter driven below zero panics. *)
Definition wg_Add : M World unit := modify (with_wg S).
Definition wg_Done : M World unit :=
  λ w, match wg w with
       | 0 => (w, Panic)
       | S n => (with_wg (λ _, n) w, Ret tt)
       end.

Section Handlers.
Context `{!Transport, !PeerStack, !MapRange}.

Definition write (to : string) (msg : Message) : M World error :=
  λ w, let r := wsjson_Write (wire w) (conn w) msg in
       ({| cm := cm w; conn := conn w; uuid := uuid w; wg := wg w;
           wire := wire w ++ [mkWrite to (conn w) msg r];
           sent := sent w; created := created w; connected := connected w;
           ticks := ticks w |}, r).

(** [m.peers[mac]] followed by a field access: the entry is a pointer,
    nil for an absent key, and the access dereferences it. *)
Definition the_peer (key : string) : M World peer :=
  λ w, match peers (cm w) !! key with
       | Some p => (w, Ret p)
       | None => (w, Panic)
       end.

Definition getPeerConnection (key : string) : M World (PeerConnection * error) :=
  p ← the_peer key;
  mret (connection p, nil).

(** A call on the connection held by [m.peers[key]]: it is recorded on
    the connection, and [effect] is what it does there when it
    succeeds. *)
Definition call_on (key : string) (c : Call) (e : PeerConnection → error)
    (effect : PeerConnection → PeerConnection) : M World error :=
  p ← the_peer key;
  let pc := connection p in
  let err := e pc in
  let pc' := match err with None => effect pc | Some _ => pc end in
  set_peers <[key := {| connection := {| pc_id := pc_id pc';
                                          remoteDescription := remoteDescription pc';
                                          calls := calls pc ++ [(c, err)] |};
                        channel := channel p;
                        candidates := candidates p |}]>;;
  mret err.

(** [SetRemoteDescription]: once it has succeeded, [RemoteDescription()]
    returns the description installed. *)
Definition do_SetRemoteDescription (key : string) (sd : SessionDescription)
    : M World error :=
  call_on key (SetRemoteDescription sd) (λ pc, pc_SetRemoteDescription pc sd)
    (λ pc, {| pc_id := pc_id pc; remoteDescription := Some sd; calls := calls pc |}).

Definition do_SetLocalDescription (key : string) (sd : SessionDescription)
    : M World error :=
  call_on key (SetLocalDescription sd) (λ pc, pc_SetLocalDescription pc sd) id.

Definition do_AddICECandidate (key : string) (candidate : ICECandidateInit)
    : M World error :=
  call_on key (AddICECandidate candidate) (λ pc, pc_AddICECandidate pc candidate) id.

Definition set_candidates (key : string) (f : list ICECandidateInit → list ICECandidateInit)
    : M World unit :=
  p ← the_peer key;
  set_peers <[key := {| connection := connection p; channel := channel p;
                        candidates := f (candidates p) |}]>.

Definition set_channel (key : string) (dc : DataChannel) : M World unit :=
  p ← the_peer key;
  set_peers <[key := {| connection := connection p; channel := Some dc;
                        candidates := candidates p |}]>.

Definition HandleAcceptance : M World error :=
  id ← gets uuid;
  set_mac id;;
  check (write id (Ready id)) $
  mret nil.

(** [createPeer]: the new connection replaces whatever [m.peers[mac]]
    held. *)
Definition createPeer (key : string) : M World error :=
  n ← gets created;
  match webrtc_NewPeerConnection n with
  | Some e => mret (Some e)
  | None =>
      modify (λ w, {| cm := cm w; conn := conn w; uuid := uuid w; wg := wg w;
                      wire := wire w; sent := sent w; created := S (created w);
                      connected := connected w; ticks := ticks w |});;
      set_peers <[key := {| connection := {| pc_id := n; remoteDescription := None;
                                              calls := [] |};
                            channel := None;
                            candidates := [] |}]>;;
      mret nil
  end.

(** The [OnOpen] callback both [createPeer] and [createDataChannel]
    install on a data channel. *)
Definition onOpen (key : string) (dc : DataChannel) : M World unit :=
  set_channel key dc;;
  modify (λ w, {| cm := cm w; conn := conn w; uuid := uuid w; wg := wg w;
                  wire := wire w; sent := sent w; created := created w;
                  connected := S (connected w); ticks := ticks w |}).

(** The [OnICECandidate] callback: a failed write panics. *)
Definition onICECandidate (key : string) (candidate : option string) : M World unit :=
  match candidate with
  | None => mret tt
  | Some i =>
      id ← gets uuid;
      e ← write key (Candidate i id key);
      match e with
      | Some _ => panic
      | None => mret tt
      end
  end.

Definition createDataChannel (key : string) : M World error :=
  p ← the_peer key;
  match pc_CreateDataChannel (connection p) with
  | inr e => call_on key CreateDataChannel (λ _, Some e) id
  | inl _ => call_on key CreateDataChannel (λ _, nil) id
  end.

Definition do_CreateOffer (key : string) : M World (SessionDescription * error) :=
  p ← the_peer key;
  match pc_CreateOffer (connection p) with
  | inr e => call_on key CreateOffer (λ _, Some e) id;; mret (""%string, Some e)
  | inl offer => call_on key CreateOffer (λ _, nil) id;; mret (offer, nil)
  end.

Definition do_CreateAnswer (key : string) : M World (SessionDescription * error) :=
  p ← the_peer key;
  match pc_CreateAnswer (connection p) with
  | inr e => call_on key CreateAnswer (λ _, Some e) id;; mret (""%string, Some e)
  | inl answer => call_on key CreateAnswer (λ _, nil) id;; mret (answer, nil)
  end.

Definition HandleIntroduction (introMac : string) : M World error :=
  wg_Add;;
  check (createPeer introMac) $
  check (createDataChannel introMac) $
  r ← do_CreateOffer introMac;
  match r.2 with
  | Some e => mret (Some e)
  | None =>
      let offer := r.1 in
      check (do_SetLocalDescription introMac offer) $
      match json_Marshal offer with
      | inr e => mret (Some e)
      | inl data =>
          id ← gets uuid;
          check (write introMac (Offer data id introMac)) $
          mret nil
      end
  end.

Definition HandleOffer (payload senderMac receiverMac : string) : M World error :=
  wg_Add;;
  match json_Unmarshal payload with
  | inr e => mret (Some e)
  | inl offer_val =>
      check (createPeer senderMac) $
      check (do_SetRemoteDescription senderMac offer_val) $
      r ← do_CreateAnswer senderMac;
      match r.2 with
      | Some e => mret (Some e)
      | None =>
          let answer_val := r.1 in
          check (do_SetLocalDescription senderMac answer_val) $
          match json_Marshal answer_val with
          | inr e => mret (Some e)
          | inl data =>
              check (write senderMac (Answer data receiverMac senderMac)) $
              (wg_Done;; mret nil)
          end
      end
  end.

(** The loop of [HandleAnswer] over the buffer it was started on. *)
Fixpoint drain (key : string) (buffer : list ICECandidateInit) : M World error :=
  match buffer with
  | [] => mret nil
  | candidate :: rest =>
      check (do_AddICECandidate key candidate) $
      drain key rest
  end.

Definition HandleAnswer (payload senderMac receiverMac : string) : M World error :=
  match json_Unmarshal payload with
  | inr e => mret (Some e)
  | inl answer_val =>
      r ← getPeerConnection senderMac;
      match r.2 with
      | Some e => mret (Some e)
      | None =>
          check (do_SetRemoteDescription senderMac answer_val) $
          p ← the_peer senderMac;
          check (if decide (0 < length (candidates p)) then
                   check (drain senderMac (candidates p)) $
                   (set_candidates senderMac (λ _, []);; mret nil)
                 else mret nil) $
          (wg_Done;; mret nil)
      end
  end.

Definition HandleCandidate (payload senderMac receiverMac : string) : M World error :=
  r ← getPeerConnection senderMac;
  match r.2 with
  | Some e => mret (Some e)
  | None =>
      p ← the_peer senderMac;
      check (if decide (is_Some (remoteDescription (connection p))) then
               check (do_AddICECandidate senderMac payload) $ mret nil
             else mret nil) $
      (set_candidates senderMac (λ buffer, buffer ++ [payload]);;
       mret nil)
  end.

Definition HandleResignation : M World error := mret nil.

Definition send (key : string) (dc : DataChannel) (data : string) : M World error :=
  λ w, let err := dc_Send (sent w) dc data in
       ({| cm := cm w; conn := conn w; uuid := uuid w; wg := wg w; wire := wire w;
           sent := sent w ++ [mkSent key dc data err];
           created := created w; connected := connected w; ticks := ticks w |},
        Ret err).

(** [m.peers[key].channel.Send(data)]: both pointers are dereferenced. *)
Definition channel_Send (key : string) (data : string) : M World error :=
  p ← the_peer key;
  match channel p with
  | None => panic
  | Some dc => send key dc data
  end.

(** The loop of [SendMessage] over the keys in the order the runtime
    visits them: it returns from inside the first eligible iteration. *)
Fixpoint SendMessage_loop (keys : list string) (wrappedMsg : string) : M World error :=
  match keys with
  | [] => mret nil
  | key :: rest =>
      self ← gets (λ w, mac (cm w));
      if decide (key ≠ self) then
        err ← channel_Send key wrappedMsg;
        match err with
        | Some _ => mret nil
        | None => mret err
        end
      else SendMessage_loop rest wrappedMsg
  end.

Definition range_peers : M World (list string) :=
  λ w, ({| cm := cm w; conn := conn w; uuid := uuid w; wg := wg w; wire := wire w;
           sent := sent w; created := created w; connected := connected w;
           ticks := S (ticks w) |},
        Ret (range_order (ticks w) (peers (cm w))).*1).

Definition SendMessage (msg : string) : M World error :=
  self ← gets (λ w, mac (cm w));
  match json_Marshal_wrapped self msg with
  | inr e => mret (Some e)
  | inl wrappedMsg =>
      keys ← range_peers;
      SendMessage_loop keys wrappedMsg
  end.

Definition SendMessageUnicast (msg : string) (key : string) : M World error :=
  self ← gets (λ w, mac (cm w));
  match json_Marshal_wrapped self msg with
  | inr e => mret (Some e)
  | inl wrappedMsg =>
      err ← channel_Send key wrappedMsg;
      match err with
      | Some _ => mret nil
      | None => mret err
      end
  end.

(** The [switch] of [SignalingClient.HandleConn] on the opcode of a
    message read from the server, its callbacks bound to the handlers of
    the manager; what a handler returns is dropped, and an opcode without
    a case is skipped. *)
Definition dispatch (msg : Message) : M World unit :=
  match msg with
  | Acceptance => HandleAcceptance;; mret tt
  | Introduction introMac => HandleIntroduction introMac;; mret tt
  | Offer p s r => HandleOffer p s r;; mret tt
  | Answer p s r => HandleAnswer p s r;; mret tt
  | Candidate p s r => HandleCandidate p s r;; mret tt
  | Resignation _ => HandleResignation;; mret tt
  | _ => mret tt
  end.

Fixpoint run (msgs : list Message) (w : World) : World :=
  match msgs with
  | [] => w
  | msg :: rest => run rest (dispatch msg w).1
  end.

End Handlers.

(** The [AddICECandidate] calls recorded on a connection. *)
Definition is_AddICECandidate (c : Call * error) : bool :=
  match c.1 with AddICECandidate _ => true | _ => false end.

Definition added (pc : PeerConnection) : list (Call * error) :=
  filter (λ c, is_AddICECandidate c = true) (calls pc).

(** *** Vocabulary for the properties *)

(** The Candidate messages of [msgs] that come from [remote]. *)
Definition is_Candidate_from (remote : string) (msg : Message) : bool :=
  match msg with
  | Candidate _ senderMac _ => bool_decide (senderMac = remote)
  | _ => false
  end.

Definition candidates_from (remote : string) (msgs : list Message) : nat :=
  length (filter (λ msg, is_Candidate_from remote msg = true) msgs).

(** The world with the peer map replaced. *)
Definition with_peers (ps : gmap string peer) (w : World) : World :=
  with_cm (λ m, {| peers := ps; mac := mac m |}) w.

(** The peer after one more call on its connection. *)
Definition called (p : peer) (c : Call) (err : error)
    (effect : PeerConnection → PeerConnection) : peer :=
  let pc := connection p in
  let pc' := match err with None => effect pc | Some _ => pc end in
  {| connection := {| pc_id := pc_id pc';
                      remoteDescription := remoteDescription pc';
                      calls := calls pc ++ [(c, err)] |};
     channel := channel p;
     candidates := candidates p |}.

(** The calls a drain of [buffer] records when each one succeeds. *)
Definition drained (buffer : list ICECandidateInit) : list (Call * error) :=
  (λ candidate, (AddICECandidate candidate, nil)) <$> buffer.

(** Every mac that has a peer entry in [w] has one in [w']. *)
Definition keeps_peers (w w' : World) : Prop :=
  ∀ key, is_Some (peers (cm w) !! key) → is_Some (peers (cm w') !! key).

(** A computation that removes no peer entry, whatever it yields. *)
Definition Keeps {A} (c : M World A) : Prop := ∀ w, keeps_peers w (c w).1.

End Client.

(** ** Concrete environments, for running the handlers *)

(** Every write succeeds. *)
Definition reliable : Transport :=
  {| wsjson_Write := λ _ _ _, Ret nil |}.

(** Writes succeed on live connections; the zero-valued connection has no
    socket and no writer state behind it, and a write on it panics (nil
    pointer dereference). *)
Definition strict : Transport :=
  {| wsjson_Write := λ _ conn _,
       match conn with
       | ZeroConn => Panic
       | LiveConn _ => Ret nil
       end |}.

(** Writes on connection [broken] fail, all others succeed. *)
Definition refusing (broken : Conn) : Transport :=
  {| wsjson_Write := λ _ conn _,
       if decide (conn = broken)
       then Ret (Some "failed to write msg: broken pipe"%string)
       else Ret nil |}.

(** Connection [broken] breaks once [n] writes have been made: from
    then on writes on it fail; every other write succeeds. *)
Definition breaking_after (n : nat) (broken : Conn) : Transport :=
  {| wsjson_Write := λ log conn _,
       if decide (conn = broken ∧ n ≤ length log)
       then Ret (Some "failed to write msg: broken pipe"%string)
       else Ret nil |}.

(** A runtime that visits maps in the order of [map_to_list]. *)
Definition plain_range : MapRange :=
  {| range_order := λ V _ m, map_to_list m;
     range_order_perm := λ V _ m, reflexivity (map_to_list m) |}.

(** A peer-connection stack on which every call succeeds. *)
Definition willing : Client.PeerStack :=
  {| Client.json_Unmarshal := inl;
     Client.json_Marshal := inl;
     Client.json_Marshal_wrapped := λ self msg, inl (self +:+ ":" +:+ msg);
     Client.webrtc_NewPeerConnection := λ _, nil;
     Client.pc_CreateDataChannel := λ pc, inl (Client.mkDC (Client.pc_id pc));
     Client.pc_CreateOffer := λ _, inl "offer"%string;
     Client.pc_CreateAnswer := λ _, inl "answer"%string;
     Client.pc_SetLocalDescription := λ _ _, nil;
     Client.pc_SetRemoteDescription := λ _ _, nil;
     Client.pc_AddICECandidate := λ _ _, nil;
     Client.dc_Send := λ _ _ _, nil |}.

(** The same stack, except that every [Send] on a data channel fails. *)
Definition mute : Client.PeerStack :=
  {| Client.json_Unmarshal := inl;
     Client.json_Marshal := inl;
     Client.json_Marshal_wrapped := λ self msg, inl (self +:+ ":" +:+ msg);
     Client.webrtc_NewPeerConnection := λ _, nil;
     Client.pc_CreateDataChannel := λ pc, inl (Client.mkDC (Client.pc_id pc));
     Client.pc_CreateOffer := λ _, inl "offer"%string;
     Client.pc_CreateAnswer := λ _, inl "answer"%string;
     Client.pc_SetLocalDescription := λ _ _, nil;
     Client.pc_SetRemoteDescription := λ _ _, nil;
     Client.pc_AddICECandidate := λ _ _, nil;
     Client.dc_Send := λ _ _ _, Some "io: read/write on closed pipe"%string |}.

(** A stack that refuses every remote description. *)
Definition stubborn : Client.PeerStack :=
  {| Client.json_Unmarshal := inl;
     Client.json_Marshal := inl;
     Client.json_Marshal_wrapped := λ self msg, inl (self +:+ ":" +:+ msg);
     Client.webrtc_NewPeerConnection := λ _, nil;
     Client.pc_CreateDataChannel := λ pc, inl (Client.mkDC (Client.pc_id pc));
     Client.pc_CreateOffer := λ _, inl "offer"%string;
     Client.pc_CreateAnswer := λ _, inl "answer"%string;
     Client.pc_SetLocalDescription := λ _ _, nil;
     Client.pc_SetRemoteDescription := λ _ _, Some "InvalidStateError"%string;
     Client.pc_AddICECandidate := λ _ _, nil;
     Client.dc_Send := λ _ _ _, nil |}.

(** A client "me", accepted, introduced to "R" and to "Q": it has sent
    both offers and waits for the answers. *)
Definition offering : Client.World :=
  @Client.run reliable willing
    [Acceptance; Introduction "R"; Introduction "Q"]
    (Client.boot (LiveConn 1) "me").

(** The same client once "R" has answered and its data channel is open. *)
Definition established : Client.World :=
  (@Client.onOpen "R" (Client.mkDC 0)
     (@Client.run reliable willing [Answer "a" "R" "me"] offering)).1.

(** Two peers of community "c", both accepted. *)
Definition two_peers : Server.World :=
  @Server.run reliable plain_range
    [(LiveConn 1, Application "c" "A"); (LiveConn 2, Application "c" "B")] Server.boot.

Module ServerTests.
Import Server.

Example two_peers_roster : roster (mgr two_peers) "c" = ["A"; "B"]%string.
Proof. vm_compute. reflexivity. Qed.

Example ready_introduces_once :
  w_msg <$> wire (@run reliable plain_range
                    [(LiveConn 1, Ready "A"); (LiveConn 2, Ready "B");
                     (LiveConn 1, Ready "A")] two_peers)
  = [Acceptance; Acceptance; Introduction "A"].
Proof. vm_compute. reflexivity. Qed.

Example exit_cleans_up :
  communities (mgr (@run reliable plain_range
                      [(LiveConn 1, Exited "A"); (LiveConn 2, Exited "B")] two_peers))
  = ∅.
Proof. vm_compute. reflexivity. Qed.
End ServerTests.

(** ** The server: properties *)

Module ServerSpec.
Import Server.

(** Unfolds the monad down to pairs of a state and a result. *)
Ltac unmonad :=
  unfold mbind, mret, M_bind, M_ret, check, bind, ret, gets, modify, panic in *;
  simpl in *.

Section Spec.
Context `{!Transport, !MapRange}.

(** *** Relays *)

Lemma relay_spec receiverMac msg w :
  let out := relay receiverMac msg w in
  let r := wsjson_Write (wire w) (sink (mgr w) receiverMac) msg in
  mgr out.1 = mgr w ∧
  ticks out.1 = ticks w ∧
  wire out.1 = wire w ++ [mkWrite receiverMac (sink (mgr w) receiverMac) msg r] ∧
  out.2 = r.
Proof.
  unfold relay, write. unmonad.
  destruct (wsjson_Write _ _ _) as [[e|]|]; simpl; auto.
Qed.


(** *** Looking up the community of a mac *)

Lemma scan_roster_elem element mac :
  scan_roster element mac = true ↔ mac ∈ element.
Proof.
  induction element as [|x rest IH]; simpl.
  - split; [done | by intros ?%elem_of_nil].
  - destruct (decide (x = mac)) as [->|Hne].
    + split; [intros _; left | done].
    + rewrite IH. split; [by right | ].
      intros [?|?]%elem_of_cons; [congruence | done].
Qed.

Lemma scan_communities_Some entries mac key :
  scan_communities entries mac = Some key →
  ∃ element, (key, element) ∈ entries ∧ mac ∈ element.
Proof.
  induction entries as [|[k el] rest IH]; simpl; [done|].
  destruct (scan_roster el mac) eqn:Hscan.
  - intros [= <-]. exists el. split; [left | by apply scan_roster_elem].
  - intros (element & Hin & Hmac)%IH. exists element. split; [by right | done].
Qed.

Lemma scan_communities_None entries mac key element :
  scan_communities entries mac = None →
  (key, element) ∈ entries → mac ∉ element.
Proof.
  induction entries as [|[k el] rest IH]; simpl.
  - by intros _ ?%elem_of_nil.
  - destruct (scan_roster el mac) eqn:Hscan; [done|].
    intros Hnone [[= -> ->]|Hin]%elem_of_cons; [|by apply IH].
    rewrite <- scan_roster_elem. by rewrite Hscan.
Qed.

Lemma roster_elem m c mac :
  mac ∈ roster m c ↔ ∃ element, communities m !! c = Some element ∧ mac ∈ element.
Proof.
  unfold roster. destruct (communities m !! c) as [el|]; simpl.
  - split; [by exists el | by intros (? & [= <-] & ?)].
  - split; [by intros ?%elem_of_nil | by intros (? & [=] & _)].
Qed.

(** [getCommunity] changes nothing but the loop counter; it finds a
    community whose roster holds the mac exactly when there is one. *)
Lemma getCommunity_spec mac w :
  let out := getCommunity mac w in
  mgr out.1 = mgr w ∧ wire out.1 = wire w ∧
  ((∃ key, out.2 = Ret (key, nil) ∧ mac ∈ roster (mgr w) key) ∨
   (∃ key msg, out.2 = Ret (key, Some msg) ∧ ¬ registered (mgr w) mac)).
Proof.
  unfold getCommunity. simpl. split; [done|]. split; [done|].
  destruct (scan_communities _ mac) as [key|] eqn:Hscan.
  - left. exists key. split; [done|].
    apply scan_communities_Some in Hscan as (element & Hin & Hmac).
    rewrite range_order_perm in Hin. apply elem_of_map_to_list in Hin.
    apply roster_elem. eauto.
  - right. do 2 eexists. split; [done|].
    intros [c (element & Hc & Hmac)%roster_elem].
    eapply scan_communities_None; [done | | done].
    rewrite range_order_perm. by apply elem_of_map_to_list.
Qed.

Lemma getCommunity_unregistered mac w :
  ¬ registered (mgr w) mac →
  (getCommunity mac w).2
  = Ret (""%string, Some "This mac is not part of any community so far!"%string).
Proof.
  intros Hnot. unfold getCommunity. simpl.
  destruct (scan_communities _ mac) as [key|] eqn:Hscan; [|done].
  exfalso. apply Hnot.
  apply scan_communities_Some in Hscan as (element & Hin & Hmac).
  rewrite range_order_perm in Hin. apply elem_of_map_to_list in Hin.
  exists key. apply roster_elem. eauto.
Qed.

Lemma getCommunity_registered mac c w :
  consistent (mgr w) → mac ∈ roster (mgr w) c → (getCommunity mac w).2 = Ret (c, nil).
Proof.
  intros Hcons Hin. destruct (getCommunity_spec mac w) as (_ & _ & Hcase).
  destruct Hcase as [(key & -> & Hkey) | (key & msg & _ & Hnot)].
  - by rewrite (roster_disjoint _ Hcons _ _ _ Hkey Hin).
  - exfalso. apply Hnot. by exists c.
Qed.

(** X2. In a consistent state [getCommunity] returns the one community
    whose roster holds the mac, in whatever order the runtime visits the
    map; for a mac on no roster it returns the empty name and the
    error. *)
Theorem getCommunity_finds_the_community (mac c : string) (w : World) :
  consistent (mgr w) →
  (mac ∈ roster (mgr w) c → (getCommunity mac w).2 = Ret (c, nil)) ∧
  (¬ registered (mgr w) mac →
   (getCommunity mac w).2
   = Ret (""%string, Some "This mac is not part of any community so far!"%string)).
Proof.
  intros Hcons. split; [by apply getCommunity_registered | apply getCommunity_unregistered].
Qed.

(** *** Removing a member from a roster *)

Lemma last_index_absent s str index elementIndex :
  str ∉ s → last_index s str index elementIndex = elementIndex.
Proof.
  revert index elementIndex. induction s as [|x rest IH]; intros index acc Hnot;
    simpl; [done|].
  apply not_elem_of_cons in Hnot as [Hne Hrest].
  rewrite IH by done. by destruct (decide (x = str)); [congruence|].
Qed.

Lemma last_index_present s str index elementIndex :
  str ∈ s →
  ∃ j, s !! j = Some str ∧ last_index s str index elementIndex = index + j.
Proof.
  revert index elementIndex. induction s as [|x rest IH]; intros index acc Hin;
    simpl; [by apply elem_of_nil in Hin|].
  destruct (decide (str ∈ rest)) as [Hrest|Hrest].
  - destruct (IH (S index) (if decide (x = str) then index else acc) Hrest)
      as (j & Hj & ->).
    exists (S j). split; [done | lia].
  - apply elem_of_cons in Hin as [->|?]; [|done].
    rewrite last_index_absent by done.
    exists 0. destruct (decide (x = x)); [|done]. split; [done | lia].
Qed.

Lemma deleteCommunity_present s str :
  str ∈ s → ∃ i, s !! i = Some str ∧ deleteCommunity s str = Ret (delete i s).
Proof.
  intros Hin. unfold deleteCommunity.
  destruct (last_index_present s str 0 0 Hin) as (j & Hj & ->). simpl.
  exists j. split; [done|].
  apply lookup_lt_Some in Hj as Hlt.
  destruct (decide (S j ≤ length s)); [|lia].
  by rewrite delete_take_drop.
Qed.

Lemma filter_all {A} (P : A → Prop) `{!∀ x, Decision (P x)} (l : list A) :
  (∀ x, x ∈ l → P x) → filter P l = l.
Proof.
  induction l as [|x l IH]; intros Hall; [done|].
  rewrite filter_cons_True by (apply Hall; left).
  f_equal. apply IH. intros y Hy. apply Hall. by right.
Qed.

Lemma delete_NoDup_filter (s : list string) i str :
  NoDup s → s !! i = Some str → delete i s = filter (λ x, x ≠ str) s.
Proof.
  intros Hnodup Hi. rewrite delete_take_drop.
  rewrite <- (take_drop_middle s i str Hi) in Hnodup |- * at 3.
  apply NoDup_app in Hnodup as (_ & Hleft & [Hright _]%NoDup_cons).
  rewrite filter_app, filter_cons_False by (intros Hne; by apply Hne).
  rewrite !filter_all; [done | |].
  - intros x Hx ->. done.
  - intros x Hx ->. apply (Hleft _ Hx). left.
Qed.

Lemma keep_unrelated_filter ps mac :
  keep_unrelated ps mac = filter (λ p, p.1 ≠ mac ∧ p.2 ≠ mac) ps.
Proof.
  induction ps as [|p rest IH]; simpl; [done|].
  destruct (decide (p.1 = mac ∨ p.2 = mac)) as [Hrel|Hunrel].
  - rewrite filter_cons_False by tauto. done.
  - rewrite filter_cons_True by tauto. by rewrite IH.
Qed.

(** *** The broadcast of a Resignation *)

Lemma HandleExited_loop_spec exitedMac members w :
  let out := HandleExited_loop exitedMac members w in
  mgr out.1 = mgr w ∧ ticks out.1 = ticks w ∧
  ∃ new, wire out.1 = wire w ++ new ∧
         (out.2 = Ret nil →
          new = resignation_to (mgr w) exitedMac <$> filter (λ x, x ≠ exitedMac) members).
Proof.
  revert w. induction members as [|member rest IH]; intros w; simpl.
  - repeat split; try done. exists []. by rewrite app_nil_r.
  - destruct (decide (member ≠ exitedMac)) as [Hne|Heq].
    + rewrite filter_cons_True by done.
      unfold write. unmonad.
      destruct (wsjson_Write (wire w) (sink (mgr w) member) (Resignation exitedMac))
        as [[e|]|] eqn:Hw; simpl.
      * repeat split; try done. eexists. split; [done|]. done.
      * match goal with |- context [HandleExited_loop _ _ ?w1] =>
          destruct (IH w1) as (Hmgr & Hticks & new & Hwire & Hnew) end.
        simpl in *. repeat split; try done.
        exists (mkWrite member (sink (mgr w) member) (Resignation exitedMac) (Ret None)
                  :: new).
        split; [by rewrite Hwire, <- app_assoc|].
        intros Hok. by rewrite (Hnew Hok).
      * repeat split; try done. eexists. split; [done|]. done.
    + rewrite filter_cons_False by done. apply IH.
Qed.

(** *** What [HandleExited] does, case by case *)

Opaque getCommunity.

Lemma HandleExited_spec mac w :
  let out := HandleExited mac w in
  (¬ registered (mgr w) mac ∧ mgr out.1 = mgr w ∧ wire out.1 = wire w ∧
   ∃ msg, out.2 = Ret (Some msg)) ∨
  (∃ key i new,
     roster (mgr w) key !! i = Some mac ∧
     wire out.1 = wire w ++ new ∧
     introducedPeers (mgr out.1) = keep_unrelated (introducedPeers (mgr w)) mac ∧
     ((out.2 ≠ Ret nil ∧
       communities (mgr out.1) = communities (mgr w) ∧
       macs (mgr out.1) = macs (mgr w)) ∨
      (out.2 = Ret nil ∧
       new = resignation_to (mgr w) mac <$> filter (λ x, x ≠ mac) (roster (mgr w) key) ∧
       macs (mgr out.1) = delete mac (macs (mgr w)) ∧
       communities (mgr out.1) =
         if decide (length (delete i (roster (mgr w) key)) = 0)
         then delete key (communities (mgr w))
         else <[key := delete i (roster (mgr w) key)]> (communities (mgr w))))).
Proof.
  pose proof (getCommunity_spec mac w) as (Hm & Hw & Hcase).
  unfold HandleExited. unmonad.
  destruct (getCommunity mac w) as [w1 r]. simpl in *.
  destruct Hcase as [(key & -> & Hin) | (key & msg & -> & Hnot)]; simpl.
  2: { left. repeat split; eauto. }
  right.
  destruct (deleteCommunity_present _ _ Hin) as (i & Hi & Hdel).
  exists key, i.
  unfold removeAssociatedPairs, set_introducedPeers, set_macs, set_communities.
  unmonad.
  match goal with |- context [HandleExited_loop mac ?l ?w2] =>
    replace l with (roster (mgr w) key) by (unfold roster; simpl; by rewrite Hm);
    pose proof (HandleExited_loop_spec mac (roster (mgr w) key) w2)
      as (Hm2 & Ht2 & new & Hw2 & Hnew);
    destruct (HandleExited_loop mac (roster (mgr w) key) w2) as [w3 r3]
  end.
  simpl in *. exists new. rewrite Hw in Hw2. rewrite Hm in Hm2, Hnew.
  unfold resignation_to, sink in Hnew |- *. simpl in Hnew.
  destruct r3 as [[e|]|]; simpl.
  - rewrite Hm2. simpl. repeat split; try done. left. by repeat split.
  - rewrite Hm2. unfold roster in *. simpl.
    rewrite Hdel. simpl. rewrite lookup_insert_eq. simpl.
    destruct (decide (length (delete i (default [] (communities (mgr w) !! key))) = 0));
      simpl.
    + repeat split; try done. right. repeat split; try done.
      * by rewrite Hnew.
      * by rewrite delete_delete_eq.
      * by rewrite delete_insert_eq.
    + repeat split; try done. right. repeat split; try done.
      * by rewrite Hnew.
      * by rewrite delete_delete_eq.
  - rewrite Hm2. simpl. repeat split; try done. left. by repeat split.
Qed.

(** *** Consistency of rosters and endpoints *)

Lemma consistent_frame m m' :
  communities m' = communities m → macs m' = macs m → consistent m → consistent m'.
Proof.
  intros Hc Hm [H1 H2 H3 H4].
  assert (Hr : ∀ c, roster m' c = roster m c) by (intros c; unfold roster; by rewrite Hc).
  split.
  - intros mac. rewrite Hm, <- H1. unfold registered. by setoid_rewrite Hr.
  - intros c. by rewrite Hr.
  - intros c1 c2 mac. rewrite !Hr. apply H3.
  - intros c. rewrite Hc. apply H4.
Qed.

Lemma consistent_join m m' c mac conn :
  consistent m →
  macs m !! mac = None →
  macs m' = <[mac := conn]> (macs m) →
  (∀ c', roster m' c' = if decide (c = c') then roster m c ++ [mac] else roster m c') →
  (∀ c', communities m' !! c' ≠ Some []) →
  consistent m'.
Proof.
  intros [H1 H2 H3 H4] Hfresh Hm Hr Hne.
  assert (Hnew : ¬ registered m mac).
  { rewrite H1, Hfresh. by intros [? ?]. }
  split; [| | |done].
  - intros x. rewrite Hm, lookup_insert_is_Some, <- H1. split.
    + intros [c' Hx]. rewrite Hr in Hx. destruct (decide (c = c')) as [<-|Hc].
      * apply elem_of_app in Hx as [Hx|Hx%list_elem_of_singleton].
        -- destruct (decide (mac = x)); [by left | right; split; [done | by exists c]].
        -- by left.
      * destruct (decide (mac = x)); [by left | right; split; [done | by exists c']].
    + intros [<- | [Hx [c' Hc']]].
      * exists c. rewrite Hr. destruct (decide (c = c)); [|done].
        apply elem_of_app. right. by apply list_elem_of_singleton.
      * exists c'. rewrite Hr. destruct (decide (c = c')) as [<-|]; [|done].
        apply elem_of_app. by left.
  - intros c'. rewrite Hr. destruct (decide (c = c')) as [<-|]; [|done].
    apply NoDup_app. split; [done|]. split; [|apply NoDup_singleton].
    intros x Hx ->%list_elem_of_singleton. apply Hnew. by exists c.
  - intros c1 c2 x. rewrite !Hr.
    destruct (decide (c = c1)) as [<-|Hc1], (decide (c = c2)) as [<-|Hc2]; [done| | |by apply H3].
    + intros [Hx | ->%list_elem_of_singleton]%elem_of_app Hx2.
      * by apply (H3 _ _ x).
      * exfalso. apply Hnew. by exists c2.
    + intros Hx1 [Hx | ->%list_elem_of_singleton]%elem_of_app.
      * by apply (H3 _ _ x).
      * exfalso. apply Hnew. by exists c1.
Qed.

Lemma consistent_leave m m' key mac :
  consistent m →
  mac ∈ roster m key →
  macs m' = delete mac (macs m) →
  (∀ c', roster m' c' =
         if decide (key = c') then filter (λ x, x ≠ mac) (roster m key) else roster m c') →
  (∀ c', communities m' !! c' ≠ Some []) →
  consistent m'.
Proof.
  intros [H1 H2 H3 H4] Hin Hm Hr Hne.
  assert (Hsub : ∀ c' x, x ∈ roster m' c' ↔ x ∈ roster m c' ∧ x ≠ mac).
  { intros c' x. rewrite Hr. destruct (decide (key = c')) as [<-|Hc].
    - rewrite list_elem_of_filter. tauto.
    - split; [|tauto]. intros Hx. split; [done|]. intros ->. by apply Hc, (H3 _ _ mac). }
  split; [| | |done].
  - intros x. rewrite Hm, lookup_delete_is_Some, <- H1. unfold registered.
    setoid_rewrite Hsub. split.
    + intros [c' [Hc' Hx]]. split; [congruence | by exists c'].
    + intros [Hx [c' Hc']]. exists c'. split; [done | congruence].
  - intros c'. rewrite Hr. destruct (decide (key = c')); [|done]. by apply NoDup_filter.
  - intros c1 c2 x [Hx1 _]%Hsub [Hx2 _]%Hsub. by apply (H3 _ _ x).
Qed.

Lemma HandleApplication_consistent community mac conn w :
  consistent (mgr w) → consistent (mgr (HandleApplication community mac conn w).1).
Proof.
  intros Hcons. unfold HandleApplication, write, set_macs, set_communities. unmonad.
  destruct (decide (is_Some (macs (mgr w) !! mac))) as [Hreg|Hfresh]; simpl.
  { by destruct (wsjson_Write _ _ _) as [[e|]|]. }
  apply eq_None_not_Some in Hfresh.
  set (m' := {| communities := <[community := default [] (communities (mgr w) !! community)
                                                ++ [mac]]> (communities (mgr w));
                macs := <[mac := conn]> (macs (mgr w));
                introducedPeers := introducedPeers (mgr w) |}).
  assert (Hcons' : consistent m').
  { apply (consistent_join (mgr w) m' community mac conn); try done.
    - intros c'. unfold roster. simpl.
      destruct (decide (community = c')) as [<-|Hne].
      + by rewrite lookup_insert_eq.
      + by rewrite lookup_insert_ne.
    - intros c'. simpl. destruct (decide (community = c')) as [<-|Hne].
      + rewrite lookup_insert_eq. intros [= Hnil]. by apply app_nil in Hnil as [_ [=]].
      + rewrite lookup_insert_ne by done. apply Hcons. }
  destruct (decide (is_Some (communities (mgr w) !! community))); simpl;
    by destruct (wsjson_Write _ _ _) as [[e|]|].
Qed.

Lemma HandleReady_loop_frame readyMac members w :
  let out := HandleReady_loop readyMac members w in
  communities (mgr out.1) = communities (mgr w) ∧ macs (mgr out.1) = macs (mgr w).
Proof.
  revert w. induction members as [|member rest IH]; intros w; simpl; [done|].
  destruct (decide (member ≠ readyMac)); [|apply IH].
  unmonad. destruct (introduced (mgr w) readyMac member); simpl; [apply IH|].
  unfold write, introduce, set_introducedPeers. unmonad.
  destruct (wsjson_Write _ _ _) as [[e|]|]; simpl; try done.
  match goal with |- context [HandleReady_loop _ _ ?w1] =>
    destruct (IH w1) as [-> ->] end. done.
Qed.

Lemma HandleReady_frame mac conn w :
  let out := HandleReady mac conn w in
  communities (mgr out.1) = communities (mgr w) ∧ macs (mgr out.1) = macs (mgr w).
Proof.
  pose proof (getCommunity_spec mac w) as (Hm & _ & _).
  unfold HandleReady. unmonad.
  destruct (getCommunity mac w) as [w1 [[key [msg|]]|]]; simpl in *; try by rewrite Hm.
  rewrite <- Hm. apply HandleReady_loop_frame.
Qed.

Lemma HandleExited_consistent mac w :
  consistent (mgr w) → consistent (mgr (HandleExited mac w).1).
Proof.
  intros Hcons.
  destruct (HandleExited_spec mac w)
    as [(_ & -> & _) | (key & i & new & Hi & _ & _ & Hcase)]; [done|].
  destruct Hcase as [(_ & Hc & Hm) | (_ & _ & Hm & Hc)].
  { by apply (consistent_frame (mgr w)). }
  assert (Hin : mac ∈ roster (mgr w) key) by (by eapply list_elem_of_lookup_2).
  rewrite (delete_NoDup_filter _ _ mac) in Hc by (done || apply Hcons).
  apply (consistent_leave (mgr w) _ key mac); try done.
  - intros c'. unfold roster at 1. rewrite Hc.
    destruct (decide (length _ = 0)) as [Hlen|Hlen], (decide (key = c')) as [<-|Hne].
    + rewrite lookup_delete_eq. by apply nil_length_inv in Hlen as ->.
    + by rewrite lookup_delete_ne.
    + by rewrite lookup_insert_eq.
    + by rewrite lookup_insert_ne.
  - intros c'. rewrite Hc.
    destruct (decide (length _ = 0)) as [Hlen|Hlen], (decide (key = c')) as [<-|Hne].
    + by rewrite lookup_delete_eq.
    + rewrite lookup_delete_ne by done. apply Hcons.
    + rewrite lookup_insert_eq. intros [= Hnil]. by rewrite Hnil in Hlen.
    + rewrite lookup_insert_ne by done. apply Hcons.
Qed.

Lemma handle_consistent conn msg w :
  consistent (mgr w) → consistent (mgr (handle conn msg w).1).
Proof.
  intros Hcons. destruct msg; simpl; try done.
  - by apply HandleApplication_consistent.
  - destruct (HandleReady_frame mac conn w). by apply (consistent_frame (mgr w)).
  - unfold HandleOffer. by destruct (relay_spec receiverMac
      (Offer payload senderMac receiverMac) w) as (-> & _).
  - unfold HandleAnswer. by destruct (relay_spec receiverMac
      (Answer payload senderMac receiverMac) w) as (-> & _).
  - unfold HandleCandidate. by destruct (relay_spec receiverMac
      (Candidate payload senderMac receiverMac) w) as (-> & _).
  - by apply HandleExited_consistent.
Qed.

Lemma boot_consistent : consistent (mgr boot).
Proof.
  split.
  - intros mac. split.
    + intros [c Hc]. unfold roster in Hc. simpl in Hc. rewrite lookup_empty in Hc.
      by apply elem_of_nil in Hc.
    + simpl. rewrite lookup_empty. by intros [? ?].
  - intros c. unfold roster. simpl. rewrite lookup_empty. apply NoDup_nil_2.
  - intros c1 c2 mac Hc. unfold roster in Hc. simpl in Hc. rewrite lookup_empty in Hc.
    by apply elem_of_nil in Hc.
  - intros c. simpl. by rewrite lookup_empty.
Qed.

Lemma run_consistent events w :
  consistent (mgr w) → consistent (mgr (run events w)).
Proof.
  revert w. induction events as [|[conn msg] rest IH]; intros w Hcons; simpl; [done|].
  by apply IH, handle_consistent.
Qed.

(** C5. Whatever messages arrive, on whatever connections and in
    whatever order (Application and Exited among them), after each
    handler a mac is on some roster exactly when it has an endpoint
    entry, no mac is on a roster twice or on two rosters, and no
    community is kept with an empty roster. *)
Theorem rosters_and_endpoints_stay_consistent (events : list (Conn * Message)) :
  consistent (mgr (run events boot)).
Proof. apply run_consistent, boot_consistent. Qed.

(** C4, as the code has it. Exited(mac) for a mac on some roster, in any
    state the server can reach, provided the handler returns without
    error (every Resignation could be written): the ledger keeps
    exactly the pairs that do not involve mac; what was written is one
    Resignation(mac) per other member of mac's community, in roster
    order, each member once, and nothing else; mac's endpoint entry is
    deleted; mac is on no roster and every roster keeps its other
    members; the community is removed when its roster became empty and
    maps to the remaining roster otherwise, other communities being
    untouched. *)
Theorem exit_purges_and_notifies (events : list (Conn * Message)) (mac : string) :
  let w := run events boot in
  let out := HandleExited mac w in
  registered (mgr w) mac →
  out.2 = Ret nil →
  ∃ key,
    mac ∈ roster (mgr w) key ∧
    introducedPeers (mgr out.1)
      = filter (λ p, p.1 ≠ mac ∧ p.2 ≠ mac) (introducedPeers (mgr w)) ∧
    written w out.1
      = resignation_to (mgr w) mac <$> filter (λ x, x ≠ mac) (roster (mgr w) key) ∧
    NoDup (filter (λ x, x ≠ mac) (roster (mgr w) key)) ∧
    macs (mgr out.1) = delete mac (macs (mgr w)) ∧
    (∀ c, mac ∉ roster (mgr out.1) c) ∧
    (∀ c, roster (mgr out.1) c = filter (λ x, x ≠ mac) (roster (mgr w) c)) ∧
    communities (mgr out.1) !! key
      = (if decide (filter (λ x, x ≠ mac) (roster (mgr w) key) = [])
         then None
         else Some (filter (λ x, x ≠ mac) (roster (mgr w) key))) ∧
    (∀ c, c ≠ key → communities (mgr out.1) !! c = communities (mgr w) !! c).
Proof.
  intros w out Hreg Hok.
  assert (Hcons : consistent (mgr w)) by apply run_consistent, boot_consistent.
  destruct (HandleExited_spec mac w)
    as [(Hnot & _) | (key & i & new & Hi & Hwire & Hledger & Hcase)]; [done|].
  fold out in Hwire, Hledger, Hcase.
  destruct Hcase as [(Hfail & _) | (_ & Hnew & Hmacs & Hcomm)]; [done|].
  assert (Hin : mac ∈ roster (mgr w) key) by (by eapply list_elem_of_lookup_2).
  rewrite (delete_NoDup_filter _ _ mac) in Hcomm by (done || apply Hcons).
  set (others := filter (λ x, x ≠ mac) (roster (mgr w) key)) in *.
  assert (Hkey : communities (mgr out.1) !! key
                 = if decide (others = []) then None else Some others).
  { rewrite Hcomm. destruct (decide (length others = 0)) as [Hlen|Hlen].
    - apply nil_length_inv in Hlen. rewrite lookup_delete_eq.
      by destruct (decide (others = [])).
    - rewrite lookup_insert_eq. destruct (decide (others = [])) as [Hnil|]; [|done].
      by rewrite Hnil in Hlen. }
  assert (Hother : ∀ c, c ≠ key →
                        communities (mgr out.1) !! c = communities (mgr w) !! c).
  { intros c Hc. rewrite Hcomm. destruct (decide (length others = 0)).
    - by rewrite lookup_delete_ne.
    - by rewrite lookup_insert_ne. }
  assert (Hrosters : ∀ c, roster (mgr out.1) c
                          = filter (λ x, x ≠ mac) (roster (mgr w) c)).
  { intros c. destruct (decide (c = key)) as [->|Hc].
    - unfold roster at 1. rewrite Hkey.
      destruct (decide (others = [])) as [Hnil|]; [symmetry; exact Hnil | done].
    - unfold roster at 1. rewrite Hother by done. fold (roster (mgr w) c).
      symmetry. apply filter_all. intros x Hx ->.
      by apply Hc, (roster_disjoint _ Hcons _ _ mac). }
  exists key. repeat split; try done.
  - by rewrite Hledger, keep_unrelated_filter.
  - unfold written. by rewrite Hwire, drop_app_length.
  - apply NoDup_filter, Hcons.
  - intros c. rewrite Hrosters. rewrite list_elem_of_filter. tauto.
Qed.

(** *** The introduction ledger *)

Lemma introduced_in_recorded ps a b :
  introduced_in ps a b = true ↔ (a, b) ∈ ps ∨ (b, a) ∈ ps.
Proof.
  induction ps as [|[x y] rest IH]; simpl.
  - split; [done|]. by intros [?%elem_of_nil|?%elem_of_nil].
  - rewrite !elem_of_cons.
    destruct (decide (x = a ∧ y = b)) as [[-> ->]|H1]; [by split; auto|].
    destruct (decide (x = b ∧ y = a)) as [[-> ->]|H2]; [by split; auto|].
    rewrite IH. split; [tauto|].
    intros [[[= -> ->]|?]|[[= -> ->]|?]]; tauto.
Qed.

Lemma introduced_recorded m a b :
  introduced m a b = true ↔ recorded m a b.
Proof. apply introduced_in_recorded. Qed.

Lemma recorded_comm m a b : recorded m a b ↔ recorded m b a.
Proof. unfold recorded. tauto. Qed.

Lemma introduced_comm m a b : introduced m a b = introduced m b a.
Proof.
  apply eq_true_iff_eq. rewrite !introduced_recorded. apply recorded_comm.
Qed.

Lemma introductions_app a b l1 l2 :
  introductions a b (l1 ++ l2) = introductions a b l1 + introductions a b l2.
Proof. unfold introductions. by rewrite filter_app, length_app. Qed.

Lemma introductions_comm a b l : introductions a b l = introductions b a l.
Proof.
  unfold introductions. f_equal. apply list_filter_iff.
  intros x. unfold introduces. tauto.
Qed.

Lemma ledger_respected_refl w : ledger_respected w w.
Proof.
  exists []. split; [by rewrite app_nil_r|].
  intros a b. unfold introductions. simpl.
  split; [intros ?; split; [done | lia] | split; [lia | intros [=]]].
Qed.

Lemma ledger_respected_trans w1 w2 w3 :
  ledger_respected w1 w2 → ledger_respected w2 w3 → ledger_respected w1 w3.
Proof.
  intros (new1 & Hw1 & H1) (new2 & Hw2 & H2).
  exists (new1 ++ new2). split; [by rewrite Hw2, Hw1, app_assoc|].
  intros a b. rewrite introductions_app.
  destruct (H1 a b) as (Hkeep1 & Hle1 & Hrec1), (H2 a b) as (Hkeep2 & Hle2 & Hrec2).
  split; [|split].
  - intros Hw. destruct (Hkeep1 Hw) as [Hw2' ?]. destruct (Hkeep2 Hw2'). split; [done | lia].
  - destruct (decide (introductions a b new1 = 1)) as [Hone|Hnone]; [|lia].
    destruct (Hkeep2 (Hrec1 Hone)). lia.
  - intros Hsum. destruct (decide (introductions a b new1 = 1)) as [Hone|Hnone].
    + by destruct (Hkeep2 (Hrec1 Hone)).
    + apply Hrec2. lia.
Qed.

(** A step that leaves the ledger alone and writes no Introduction. *)
Lemma ledger_respected_quiet w w' new :
  introducedPeers (mgr w') = introducedPeers (mgr w) →
  wire w' = wire w ++ new →
  (∀ x mac, x ∈ new → w_res x = Ret nil → w_msg x ≠ Introduction mac) →
  ledger_respected w w'.
Proof.
  intros Hledger Hwire Hquiet. exists new. split; [done|].
  assert (Hzero : ∀ a b, introductions a b new = 0).
  { intros a b. unfold introductions.
    destruct (filter (introduces a b) new) as [|x rest] eqn:Hf; [done|]. exfalso.
    assert (Hx : x ∈ filter (introduces a b) new) by (rewrite Hf; left).
    apply list_elem_of_filter in Hx as [[Hres Hmsg] Hx].
    destruct Hmsg as [[Hmsg _]|[Hmsg _]]; by eapply Hquiet. }
  intros a b. rewrite Hzero. unfold recorded. rewrite Hledger.
  split; [intros ?; split; [done | lia] | split; [lia | intros [=]]].
Qed.

(** The one step that touches the ledger: an Introduction of
    [readyMac] delivered to [member], then recorded. *)
Lemma ledger_respected_introduce w w' readyMac member conn :
  ¬ recorded (mgr w) readyMac member →
  member ≠ readyMac →
  introducedPeers (mgr w') = introducedPeers (mgr w) ++ [(readyMac, member)] →
  wire w' = wire w ++ [mkWrite member conn (Introduction readyMac) (Ret nil)] →
  ledger_respected w w'.
Proof.
  intros Hnew Hne Hledger Hwire. eexists. split; [done|].
  intros a b. unfold introductions, recorded. rewrite Hledger.
  setoid_rewrite elem_of_app. setoid_rewrite list_elem_of_singleton.
  destruct (decide (introduces a b
              (mkWrite member conn (Introduction readyMac) (Ret nil)))) as [Hyes|Hno].
  - rewrite filter_cons_True by done. simpl.
    assert (Hab : (a = readyMac ∧ b = member) ∨ (b = readyMac ∧ a = member)).
    { destruct Hyes as [_ [[[= ->] ?]|[[= ->] ?]]]; simpl in *; auto. }
    split; [|split].
    + intros Hw. exfalso. apply Hnew. unfold recorded.
      destruct Hab as [[-> ->]|[-> ->]]; tauto.
    + lia.
    + intros _. destruct Hab as [[-> ->]|[-> ->]]; auto.
  - rewrite filter_cons_False by done. simpl.
    split; [intros ?; split; [tauto | lia] | split; [lia | intros [=]]].
Qed.

Lemma HandleReady_loop_ledger readyMac members w :
  ledger_respected w (HandleReady_loop readyMac members w).1.
Proof.
  revert w. induction members as [|member rest IH]; intros w; simpl.
  { apply ledger_respected_refl. }
  destruct (decide (member ≠ readyMac)) as [Hne|]; [|apply IH].
  unmonad. destruct (introduced (mgr w) readyMac member) eqn:Hintro; simpl; [apply IH|].
  assert (Hnew : ¬ recorded (mgr w) readyMac member).
  { rewrite <- introduced_recorded. by rewrite Hintro. }
  unfold write, introduce, set_introducedPeers. unmonad.
  destruct (wsjson_Write _ _ _) as [[e|]|] eqn:Hres; simpl.
  - eapply ledger_respected_quiet; [done..|].
    by intros x mac ->%list_elem_of_singleton.
  - eapply ledger_respected_trans; [|apply IH].
    by eapply ledger_respected_introduce.
  - eapply ledger_respected_quiet; [done..|].
    by intros x mac ->%list_elem_of_singleton.
Qed.

Lemma HandleReady_ledger mac conn w :
  ledger_respected w (HandleReady mac conn w).1.
Proof.
  pose proof (getCommunity_spec mac w) as (Hm & Hw & _).
  unfold HandleReady. unmonad.
  destruct (getCommunity mac w) as [w1 [[key [msg|]]|]]; simpl in *.
  - eapply (ledger_respected_quiet _ _ []);
      [by rewrite Hm | by rewrite Hw, app_nil_r | by intros ? ? ?%elem_of_nil].
  - eapply ledger_respected_trans; [|apply HandleReady_loop_ledger].
    eapply (ledger_respected_quiet _ _ []);
      [by rewrite Hm | by rewrite Hw, app_nil_r | by intros ? ? ?%elem_of_nil].
  - eapply (ledger_respected_quiet _ _ []);
      [by rewrite Hm | by rewrite Hw, app_nil_r | by intros ? ? ?%elem_of_nil].
Qed.

Lemma HandleApplication_ledger community mac conn w :
  ledger_respected w (HandleApplication community mac conn w).1.
Proof.
  unfold HandleApplication, write, set_macs, set_communities. unmonad.
  destruct (decide (is_Some (macs (mgr w) !! mac))); simpl.
  { destruct (wsjson_Write _ _ _) as [[e|]|]; simpl;
      (eapply ledger_respected_quiet; [done..|];
       by intros x ? ->%list_elem_of_singleton). }
  destruct (decide (is_Some (communities (mgr w) !! community))); simpl;
    destruct (wsjson_Write _ _ _) as [[e|]|]; simpl;
    (eapply ledger_respected_quiet; [done..|];
     by intros x ? ->%list_elem_of_singleton).
Qed.

Lemma relay_ledger receiverMac msg w :
  (∀ mac, msg ≠ Introduction mac) →
  ledger_respected w (relay receiverMac msg w).1.
Proof.
  intros Hmsg. destruct (relay_spec receiverMac msg w) as (Hm & _ & Hw & _).
  eapply ledger_respected_quiet; [by rewrite Hm | done |].
  intros x mac ->%list_elem_of_singleton _. apply Hmsg.
Qed.

Lemma handle_ledger conn msg w :
  is_Exited msg = false → ledger_respected w (handle conn msg w).1.
Proof.
  intros Hmsg. destruct msg; simpl; try done; try apply ledger_respected_refl.
  - apply HandleApplication_ledger.
  - apply HandleReady_ledger.
  - by apply relay_ledger.
  - by apply relay_ledger.
  - by apply relay_ledger.
Qed.

Lemma run_ledger events w :
  nobody_exits events = true → ledger_respected w (run events w).
Proof.
  revert w. induction events as [|[conn msg] rest IH]; intros w Hevents; simpl.
  { apply ledger_respected_refl. }
  apply andb_prop in Hevents as [Hmsg%negb_true_iff Hrest].
  eapply ledger_respected_trans; [by apply handle_ledger | by apply IH].
Qed.

(** C2. While nobody exits, whatever messages the server processes
    from whatever state (Ready messages in particular), the
    Introductions it delivers between two peers, in either direction,
    number at most one; a pair already on the ledger in either
    orientation is sent none; and the ledger query does not depend on
    the order of its two arguments. *)
Theorem at_most_one_introduction_per_pair
    (events : list (Conn * Message)) (w : World) (a b : string) :
  nobody_exits events = true →
  let w' := run events w in
  introductions a b (written w w') ≤ 1 ∧
  (recorded (mgr w) a b → introductions a b (written w w') = 0) ∧
  introductions a b (written w w') = introductions b a (written w w') ∧
  introduced (mgr w) a b = introduced (mgr w) b a.
Proof.
  intros Hevents w'.
  destruct (run_ledger events w Hevents) as (new & Hwire & Hnew).
  fold w' in Hwire. unfold written. rewrite Hwire, drop_app_length.
  destruct (Hnew a b) as (Hkeep & Hle & _).
  split; [done|]. split; [by intros [_ ?]%Hkeep|].
  split; [apply introductions_comm | apply introduced_comm].
Qed.

(** C7, as the code has it. A relayed Offer, Answer or Candidate whose
    receiverMac has no endpoint entry is not dropped: the handler does
    not look whether the receiver exists, makes the write on the
    zero-valued connection the lookup yields, and ends as that write
    ends.  A write on a zero-valued connection panics, and then so does
    the handler: it does not return.  The endpoint map, the rosters and
    the ledger are untouched, and nothing is written on any other
    connection. *)
Theorem relay_to_missing_receiver_writes_on_zero_conn
    (payload senderMac receiverMac : string) (w : World) :
  macs (mgr w) !! receiverMac = None →
  (wrote_only w receiverMac ZeroConn (Offer payload senderMac receiverMac)
     (HandleOffer payload senderMac receiverMac w) ∧
   wrote_only w receiverMac ZeroConn (Answer payload senderMac receiverMac)
     (HandleAnswer payload senderMac receiverMac w) ∧
   wrote_only w receiverMac ZeroConn (Candidate payload senderMac receiverMac)
     (HandleCandidate payload senderMac receiverMac w)) ∧
  ((∀ msg, wsjson_Write (wire w) ZeroConn msg = Panic) →
   (HandleOffer payload senderMac receiverMac w).2 = Panic ∧
   (HandleAnswer payload senderMac receiverMac w).2 = Panic ∧
   (HandleCandidate payload senderMac receiverMac w).2 = Panic).
Proof.
  intros Hmissing.
  assert (Hzero : sink (mgr w) receiverMac = ZeroConn).
  { unfold sink. by rewrite Hmissing. }
  assert (Hwrote :
    wrote_only w receiverMac ZeroConn (Offer payload senderMac receiverMac)
      (HandleOffer payload senderMac receiverMac w) ∧
    wrote_only w receiverMac ZeroConn (Answer payload senderMac receiverMac)
      (HandleAnswer payload senderMac receiverMac w) ∧
    wrote_only w receiverMac ZeroConn (Candidate payload senderMac receiverMac)
      (HandleCandidate payload senderMac receiverMac w)).
  { unfold HandleOffer, HandleAnswer, HandleCandidate, wrote_only.
    repeat split;
      match goal with |- context [relay ?r ?m w] =>
        destruct (relay_spec r m w) as (Hm & _ & Hw & Hr) end;
      rewrite Hzero in Hw, Hr; done. }
  split; [exact Hwrote|].
  intros Hpanics.
  destruct Hwrote as ((_ & _ & Ho) & (_ & _ & Ha) & (_ & _ & Hc)).
  rewrite Ho, Ha, Hc. by rewrite !Hpanics.
Qed.

(** *** A fresh application *)

Lemma HandleApplication_fresh community mac conn w :
  macs (mgr w) !! mac = None →
  let out := HandleApplication community mac conn w in
  let r := wsjson_Write (wire w) conn Acceptance in
  mgr out.1 = {| communities := <[community := roster (mgr w) community ++ [mac]]>
                                  (communities (mgr w));
                 macs := <[mac := conn]> (macs (mgr w));
                 introducedPeers := introducedPeers (mgr w) |} ∧
  wire out.1 = wire w ++ [mkWrite mac conn Acceptance r] ∧
  out.2 = r.
Proof.
  intros Hfresh. unfold HandleApplication, write, set_macs, set_communities, roster.
  unmonad.
  destruct (decide (is_Some (macs (mgr w) !! mac))) as [[? Hreg]|_]; [congruence|].
  simpl. destruct (decide (is_Some (communities (mgr w) !! community))); simpl;
    by destruct (wsjson_Write _ _ _) as [[e|]|].
Qed.

(** X1. An Application whose mac has no endpoint entry: the mac is
    bound to the applying connection and put at the end of the roster of
    its community (a roster of its own when the community is new), other
    rosters and the ledger are untouched, Acceptance is the one message
    written, on the applying connection, and the handler returns what
    that write returns; the registration stands also when the write
    fails. *)
Theorem application_of_fresh_mac_registers (community mac : string) (conn : Conn) (w : World) :
  macs (mgr w) !! mac = None →
  let out := HandleApplication community mac conn w in
  let r := wsjson_Write (wire w) conn Acceptance in
  macs (mgr out.1) = <[mac := conn]> (macs (mgr w)) ∧
  roster (mgr out.1) community = roster (mgr w) community ++ [mac] ∧
  (∀ c, c ≠ community → communities (mgr out.1) !! c = communities (mgr w) !! c) ∧
  introducedPeers (mgr out.1) = introducedPeers (mgr w) ∧
  wire out.1 = wire w ++ [mkWrite mac conn Acceptance r] ∧
  out.2 = r.
Proof.
  intros Hfresh.
  destruct (HandleApplication_fresh community mac conn w Hfresh) as (Hm & Hw & Hr).
  simpl. rewrite Hm. simpl. repeat split; try done.
  - unfold roster at 1. simpl. by rewrite lookup_insert_eq.
  - intros c Hc. by rewrite lookup_insert_ne.
Qed.

(** *** A mac on no roster *)

(** X3. Ready and Exited for a mac that is on no roster are refused
    with the error of [getCommunity]: nothing is written and the
    endpoint map, the rosters and the ledger are as before. *)
Theorem unknown_mac_is_refused (mac : string) (conn : Conn) (w : World) :
  ¬ registered (mgr w) mac →
  (let out := HandleReady mac conn w in
   mgr out.1 = mgr w ∧ wire out.1 = wire w ∧ out.2 = unknown_mac) ∧
  (let out := HandleExited mac w in
   mgr out.1 = mgr w ∧ wire out.1 = wire w ∧ out.2 = unknown_mac).
Proof.
  intros Hnot.
  pose proof (getCommunity_spec mac w) as (Hm & Hw & _).
  pose proof (getCommunity_unregistered mac w Hnot) as Hr.
  unfold HandleReady, HandleExited. unmonad.
  destruct (getCommunity mac w) as [w1 r]. simpl in *. subst r. simpl.
  by repeat split.
Qed.

(** *** [deleteCommunity] at its edges *)

(** X6. [deleteCommunity] does not look whether it found the string:
    asked to remove a string that is not in the slice it removes the
    first element, and on the empty slice it panics (slice bounds out of
    range). *)
Theorem deleteCommunity_of_absent_string_drops_the_head (s : list string) (str : string) :
  str ∉ s →
  deleteCommunity s str = match s with
                          | [] => Panic
                          | _ :: rest => Ret rest
                          end.
Proof.
  intros Hnot. unfold deleteCommunity. rewrite last_index_absent by done.
  destruct s as [|x rest]; simpl; [done|].
  destruct (decide (1 ≤ S (length rest))); [|lia]. by rewrite drop_0.
Qed.

Lemma last_index_is_last s str index elementIndex j :
  s !! j = Some str →
  last_index s str index elementIndex = index + j →
  str ∉ drop (S j) s.
Proof.
  revert index elementIndex j. induction s as [|x rest IH]; intros index acc j Hj Hlast;
    [done|].
  simpl in Hlast. destruct j as [|j]; simpl in *.
  - rewrite drop_0. intros Hin.
    destruct (last_index_present rest str (S index) (if decide (x = str) then index else acc)
                Hin) as (k & _ & Hk).
    lia.
  - apply (IH (S index) (if decide (x = str) then index else acc)); [done | lia].
Qed.

(** X7. [deleteCommunity] of a string the slice holds never panics and
    removes one element, the last occurrence of the string: the slice
    gets one shorter, the elements before and after that position keep
    their order, and earlier occurrences stay. *)
Theorem deleteCommunity_removes_the_last_occurrence (s : list string) (str : string) :
  str ∈ s →
  ∃ i, s !! i = Some str ∧
       (str ∉ drop (S i) s) ∧
       deleteCommunity s str = Ret (take i s ++ drop (S i) s) ∧
       S (length (take i s ++ drop (S i) s)) = length s.
Proof.
  intros Hin. unfold deleteCommunity.
  destruct (last_index_present s str 0 0 Hin) as (j & Hj & Hlast).
  exists j. split; [done|]. split; [by eapply last_index_is_last|].
  rewrite Hlast. simpl. apply lookup_lt_Some in Hj as Hlt.
  destruct (decide (S j ≤ length s)); [|lia]. split; [done|].
  rewrite length_app, length_take, length_drop. lia.
Qed.

(** *** What a Ready writes *)

Lemma filter_ext_in {A} (P Q : A → Prop) `{!∀ x, Decision (P x), !∀ x, Decision (Q x)}
    (l : list A) :
  (∀ x, x ∈ l → P x ↔ Q x) → filter P l = filter Q l.
Proof.
  induction l as [|x l IH]; intros Hext; [done|].
  assert (Hl : filter P l = filter Q l).
  { apply IH. intros y Hy. apply Hext. by right. }
  destruct (decide (P x)) as [HP|HP].
  - rewrite !filter_cons_True; [by rewrite Hl | by apply Hext; [left|] | done].
  - rewrite !filter_cons_False; [done | | done].
    intros HQ. apply HP, Hext; [left | done].
Qed.

Lemma HandleReady_loop_spec readyMac members w :
  NoDup members →
  let out := HandleReady_loop readyMac members w in
  out.2 = Ret nil →
  wire out.1
    = wire w ++ (introduction_to (mgr w) readyMac <$> newcomers (mgr w) readyMac members) ∧
  introducedPeers (mgr out.1)
    = introducedPeers (mgr w) ++ ((λ x, (readyMac, x)) <$> newcomers (mgr w) readyMac members).
Proof.
  revert w. induction members as [|member rest IH]; intros w Hnodup; simpl.
  { intros _. by rewrite !app_nil_r. }
  apply NoDup_cons in Hnodup as [Hfresh Hrest]. unfold newcomers in *.
  destruct (decide (member ≠ readyMac)) as [Hne|Heq].
  2: { rewrite filter_cons_False by tauto. by apply IH. }
  unmonad. destruct (introduced (mgr w) readyMac member) eqn:Hintro; simpl.
  { apply introduced_recorded in Hintro. rewrite filter_cons_False by tauto. by apply IH. }
  assert (Hnew : ¬ recorded (mgr w) readyMac member).
  { rewrite <- introduced_recorded. by rewrite Hintro. }
  rewrite filter_cons_True by done.
  unfold write, introduce, set_introducedPeers. unmonad.
  destruct (wsjson_Write (wire w) (sink (mgr w) member) (Introduction readyMac))
    as [[e|]|] eqn:Hres; simpl; [done| |done].
  match goal with |- context [HandleReady_loop _ _ ?w1] => set (w1' := w1) end.
  intros Hok. destruct (IH w1' Hrest Hok) as [Hwire Hledger].
  assert (Hsame : filter (λ x, x ≠ readyMac ∧ ¬ recorded (mgr w1') readyMac x) rest
                  = filter (λ x, x ≠ readyMac ∧ ¬ recorded (mgr w) readyMac x) rest).
  { apply filter_ext_in. intros x Hx. unfold recorded. simpl.
    rewrite !elem_of_app, !list_elem_of_singleton.
    assert (x ≠ member) by (by intros ->).
    split; intros [Hxne Hrec]; (split; [done|]); intros Hr; apply Hrec.
    - tauto.
    - destruct Hr as [[?|[= ?]]|[?|[= ? ?]]]; tauto. }
  rewrite Hsame in Hwire, Hledger. rewrite Hwire, Hledger. simpl.
  by rewrite <- !app_assoc.
Qed.

(** Nothing is left to introduce: the loop leaves everything as it is. *)
Lemma HandleReady_loop_silent readyMac members w :
  (∀ x, x ∈ members → x ≠ readyMac → recorded (mgr w) readyMac x) →
  HandleReady_loop readyMac members w = (w, Ret nil).
Proof.
  induction members as [|member rest IH]; intros Hall; simpl; [done|].
  assert (Hrest : HandleReady_loop readyMac rest w = (w, Ret nil)).
  { apply IH. intros x Hx. apply Hall. by right. }
  destruct (decide (member ≠ readyMac)) as [Hne|]; [|done].
  unmonad. assert (Hrec : introduced (mgr w) readyMac member = true).
  { apply introduced_recorded, Hall; [left | done]. }
  by rewrite Hrec.
Qed.

Lemma HandleReady_registered mac conn c w :
  consistent (mgr w) → mac ∈ roster (mgr w) c →
  ∃ w1, mgr w1 = mgr w ∧ wire w1 = wire w ∧
        HandleReady mac conn w = HandleReady_loop mac (roster (mgr w) c) w1.
Proof.
  intros Hcons Hin.
  pose proof (getCommunity_spec mac w) as (Hm & Hw & _).
  pose proof (getCommunity_registered mac c w Hcons Hin) as Hr.
  unfold HandleReady. unmonad.
  destruct (getCommunity mac w) as [w1 r]. simpl in *. subst r. simpl.
  exists w1. by rewrite Hm.
Qed.

(** X4. A Ready of a registered mac, in a consistent state, that
    returns without error: it wrote one Introduction naming the mac to
    each other member of its community that the ledger did not pair
    with it yet, in roster order, and nothing else; it put these pairs
    at the end of the ledger in the same order; afterwards every other
    member of the community is paired with the mac. *)
Theorem ready_introduces_to_the_unintroduced
    (mac c : string) (conn : Conn) (w : World) :
  consistent (mgr w) →
  mac ∈ roster (mgr w) c →
  let out := HandleReady mac conn w in
  out.2 = Ret nil →
  written w out.1 = introduction_to (mgr w) mac <$> newcomers (mgr w) mac (roster (mgr w) c) ∧
  introducedPeers (mgr out.1)
    = introducedPeers (mgr w) ++ ((λ x, (mac, x)) <$> newcomers (mgr w) mac (roster (mgr w) c)) ∧
  (∀ x, x ∈ roster (mgr w) c → x ≠ mac → recorded (mgr out.1) mac x).
Proof.
  intros Hcons Hin out Hok.
  destruct (HandleReady_registered mac conn c w Hcons Hin) as (w1 & Hm & Hw & Hrun).
  unfold out in *. rewrite Hrun in Hok |- *.
  destruct (HandleReady_loop_spec mac (roster (mgr w) c) w1 (roster_NoDup _ Hcons c) Hok)
    as [Hwire Hledger].
  rewrite Hm, Hw in Hwire. rewrite Hm in Hledger.
  split; [unfold written; by rewrite Hwire, drop_app_length|]. split; [done|].
  intros x Hx Hne. unfold recorded. rewrite Hledger.
  destruct (decide (recorded (mgr w) mac x)) as [[?|?]|Hnew].
  - left. apply elem_of_app. by left.
  - right. apply elem_of_app. by left.
  - left. apply elem_of_app. right. apply list_elem_of_fmap. exists x. split; [done|].
    unfold newcomers. by apply list_elem_of_filter.
Qed.

(** X9. A Ready repeated right after one that returned without error
    writes nothing, leaves the endpoint map, the rosters and the ledger as
    they are, and returns nil. *)
Theorem ready_again_is_silent (mac : string) (conn conn' : Conn) (w : World) :
  consistent (mgr w) →
  registered (mgr w) mac →
  let out := HandleReady mac conn w in
  out.2 = Ret nil →
  let again := HandleReady mac conn' out.1 in
  mgr again.1 = mgr out.1 ∧ wire again.1 = wire out.1 ∧ again.2 = Ret nil.
Proof.
  intros Hcons [c Hin] out Hok again.
  destruct (HandleReady_registered mac conn c w Hcons Hin) as (w1 & Hm & Hw & Hrun).
  destruct (HandleReady_frame mac conn w) as [Hcomm Hmacs]. fold out in Hcomm, Hmacs.
  assert (Hroster : roster (mgr out.1) c = roster (mgr w) c).
  { unfold roster. by rewrite Hcomm. }
  assert (Hall : ∀ x, x ∈ roster (mgr out.1) c → x ≠ mac → recorded (mgr out.1) mac x).
  { unfold out in *. rewrite Hrun in Hok. rewrite Hroster. clear Hroster.
    rewrite Hrun. intros x Hx Hne.
    destruct (HandleReady_loop_spec mac (roster (mgr w) c) w1 (roster_NoDup _ Hcons c) Hok)
      as [_ Hledger].
    unfold recorded. rewrite Hledger, Hm.
    destruct (decide (recorded (mgr w) mac x)) as [[?|?]|Hnew].
    - left. apply elem_of_app. by left.
    - right. apply elem_of_app. by left.
    - left. apply elem_of_app. right. apply list_elem_of_fmap. exists x. split; [done|].
      unfold newcomers. by apply list_elem_of_filter. }
  assert (Hcons' : consistent (mgr out.1)) by (by apply (consistent_frame (mgr w))).
  assert (Hin' : mac ∈ roster (mgr out.1) c) by (by rewrite Hroster).
  destruct (HandleReady_registered mac conn' c out.1 Hcons' Hin') as (w2 & Hm2 & Hw2 & Hrun2).
  unfold again. rewrite Hrun2, HandleReady_loop_silent by (by rewrite Hm2).
  done.
Qed.

(** *** Soundness of the ledger *)

Lemma ledger_sound_grow m m' :
  introducedPeers m' = introducedPeers m →
  (∀ c x, x ∈ roster m c → x ∈ roster m' c) →
  ledger_sound m → ledger_sound m'.
Proof.
  intros Hledger Hgrow [H1 H2 H3]. split; rewrite Hledger; [done..|].
  intros a b (c & Ha & Hb)%H3. exists c. split; by apply Hgrow.
Qed.

Lemma ledger_sound_introduce m m' readyMac member c :
  introducedPeers m' = introducedPeers m ++ [(readyMac, member)] →
  communities m' = communities m →
  ¬ recorded m readyMac member →
  member ≠ readyMac →
  readyMac ∈ roster m c → member ∈ roster m c →
  ledger_sound m → ledger_sound m'.
Proof.
  intros Hledger Hcomm Hnew Hne Hr Hm [H1 H2 H3].
  assert (Hroster : ∀ c', roster m' c' = roster m c') by (intros ?; unfold roster; by rewrite Hcomm).
  unfold recorded in Hnew.
  split; rewrite Hledger.
  - apply NoDup_app. split; [done|]. split; [|apply NoDup_singleton].
    intros p Hp ->%list_elem_of_singleton. tauto.
  - intros a b. rewrite !elem_of_app, !list_elem_of_singleton.
    intros [Hab|[= -> ->]] [Hba|[= ? ?]]; subst; try tauto.
    by apply (H2 a b).
  - intros a b. rewrite elem_of_app, list_elem_of_singleton. setoid_rewrite Hroster.
    intros [Hab|[= -> ->]]; [by apply H3 | by exists c].
Qed.

Lemma ledger_sound_purge m m' mac :
  introducedPeers m' = keep_unrelated (introducedPeers m) mac →
  (∀ c x, x ∈ roster m c → x ≠ mac → x ∈ roster m' c) →
  ledger_sound m → ledger_sound m'.
Proof.
  intros Hledger Hkeep [H1 H2 H3]. rewrite keep_unrelated_filter in Hledger.
  split; rewrite Hledger.
  - by apply NoDup_filter.
  - intros a b [_ Hab]%list_elem_of_filter [_ Hba]%list_elem_of_filter. by apply (H2 a b).
  - intros a b [[Ha Hb] (c & Hac & Hbc)%H3]%list_elem_of_filter. simpl in *.
    exists c. split; by apply Hkeep.
Qed.

Lemma HandleReady_loop_sound readyMac members c w :
  readyMac ∈ roster (mgr w) c →
  (∀ x, x ∈ members → x ∈ roster (mgr w) c) →
  ledger_sound (mgr w) →
  ledger_sound (mgr (HandleReady_loop readyMac members w).1).
Proof.
  revert w. induction members as [|member rest IH]; intros w Hr Hin Hsound; simpl; [done|].
  assert (Hrest : ∀ x, x ∈ rest → x ∈ roster (mgr w) c).
  { intros x Hx. apply Hin. by right. }
  destruct (decide (member ≠ readyMac)) as [Hne|]; [|by apply IH].
  unmonad. destruct (introduced (mgr w) readyMac member) eqn:Hintro; simpl; [by apply IH|].
  assert (Hnew : ¬ recorded (mgr w) readyMac member).
  { rewrite <- introduced_recorded. by rewrite Hintro. }
  unfold write, introduce, set_introducedPeers. unmonad.
  destruct (wsjson_Write _ _ _) as [[e|]|]; simpl; try done.
  apply IH; try done.
  eapply (ledger_sound_introduce (mgr w) _ readyMac member c); try done.
  apply Hin. left.
Qed.

Lemma HandleReady_sound mac conn w :
  ledger_sound (mgr w) → ledger_sound (mgr (HandleReady mac conn w).1).
Proof.
  intros Hsound. pose proof (getCommunity_spec mac w) as (Hm & _ & Hcase).
  unfold HandleReady. unmonad.
  destruct (getCommunity mac w) as [w1 r]. simpl in *.
  destruct Hcase as [(key & -> & Hin) | (key & msg & -> & _)]; simpl; [|by rewrite Hm].
  apply (HandleReady_loop_sound mac _ key); rewrite Hm; done.
Qed.

Lemma HandleApplication_sound community mac conn w :
  ledger_sound (mgr w) → ledger_sound (mgr (HandleApplication community mac conn w).1).
Proof.
  intros Hsound. destruct (macs (mgr w) !! mac) as [old|] eqn:Hmac.
  - assert (Hreg : is_Some (macs (mgr w) !! mac)) by (by exists old).
    unfold HandleApplication, write. unmonad.
    destruct (decide (is_Some (macs (mgr w) !! mac))); [|done].
    simpl. by destruct (wsjson_Write _ _ _) as [[e|]|].
  - destruct (HandleApplication_fresh community mac conn w Hmac) as (-> & _).
    apply (ledger_sound_grow (mgr w)); [done| |done].
    intros c x Hx. unfold roster at 1. simpl.
    destruct (decide (community = c)) as [<-|Hne].
    + rewrite lookup_insert_eq. simpl. apply elem_of_app. by left.
    + by rewrite lookup_insert_ne.
Qed.

(** The rosters after a member left: each one without that member. *)
Lemma rosters_after_leave m cs' key i mac :
  consistent m →
  roster m key !! i = Some mac →
  cs' = (if decide (length (delete i (roster m key)) = 0)
         then delete key (communities m)
         else <[key := delete i (roster m key)]> (communities m)) →
  ∀ c, default [] (cs' !! c) = filter (λ x, x ≠ mac) (roster m c).
Proof.
  intros Hcons Hi -> c.
  assert (Hin : mac ∈ roster m key) by (by eapply list_elem_of_lookup_2).
  rewrite (delete_NoDup_filter _ _ mac) by (done || apply Hcons).
  destruct (decide (c = key)) as [->|Hc].
  - destruct (decide (length _ = 0)) as [Hlen|Hlen].
    + rewrite lookup_delete_eq. by apply nil_length_inv in Hlen as ->.
    + by rewrite lookup_insert_eq.
  - assert (Hsame : filter (λ x, x ≠ mac) (roster m c) = roster m c).
    { apply filter_all. intros x Hx ->. by apply Hc, (roster_disjoint _ Hcons _ _ mac). }
    rewrite Hsame. unfold roster at 3.
    destruct (decide (length _ = 0)).
    + by rewrite lookup_delete_ne.
    + by rewrite lookup_insert_ne.
Qed.

Lemma HandleExited_sound mac w :
  consistent (mgr w) → ledger_sound (mgr w) → ledger_sound (mgr (HandleExited mac w).1).
Proof.
  intros Hcons Hsound.
  destruct (HandleExited_spec mac w)
    as [(_ & -> & _) | (key & i & new & Hi & _ & Hledger & Hcase)]; [done|].
  apply (ledger_sound_purge (mgr w) _ mac); [done| |done].
  destruct Hcase as [(_ & Hc & _) | (_ & _ & _ & Hc)].
  - intros c x Hx _. unfold roster. by rewrite Hc.
  - intros c x Hx Hne. unfold roster at 1.
    rewrite (rosters_after_leave (mgr w) _ key i mac Hcons Hi Hc).
    by apply list_elem_of_filter.
Qed.

Lemma handle_sound conn msg w :
  consistent (mgr w) → ledger_sound (mgr w) → ledger_sound (mgr (handle conn msg w).1).
Proof.
  intros Hcons Hsound. destruct msg; simpl; try done.
  - by apply HandleApplication_sound.
  - by apply HandleReady_sound.
  - unfold HandleOffer. by destruct (relay_spec receiverMac
      (Offer payload senderMac receiverMac) w) as (-> & _).
  - unfold HandleAnswer. by destruct (relay_spec receiverMac
      (Answer payload senderMac receiverMac) w) as (-> & _).
  - unfold HandleCandidate. by destruct (relay_spec receiverMac
      (Candidate payload senderMac receiverMac) w) as (-> & _).
  - by apply HandleExited_sound.
Qed.

Lemma run_sound events w :
  consistent (mgr w) → ledger_sound (mgr w) → ledger_sound (mgr (run events w)).
Proof.
  revert w. induction events as [|[conn msg] rest IH]; intros w Hcons Hsound; simpl; [done|].
  apply IH; [by apply handle_consistent | by apply handle_sound].
Qed.

Lemma boot_sound : ledger_sound (mgr boot).
Proof.
  split; simpl.
  - apply NoDup_nil_2.
  - by intros a b ?%elem_of_nil.
  - by intros a b ?%elem_of_nil.
Qed.

(** X5. Whatever messages arrive, in every state the server reaches
    the ledger holds no pair twice, holds no pair in both orientations
    (nor a mac paired with itself), and holds only pairs of two macs that
    are on one and the same roster: the pairs of a mac that left are
    gone. *)
Theorem ledger_stays_sound (events : list (Conn * Message)) :
  ledger_sound (mgr (run events boot)).
Proof. apply run_sound; [apply boot_consistent | apply boot_sound]. Qed.

Lemma manager_eq (m m' : CommunitiesManager) :
  communities m = communities m' → macs m = macs m' →
  introducedPeers m = introducedPeers m' → m = m'.
Proof. destruct m, m'. simpl. by intros -> -> ->. Qed.

(** X8. In any state the server reaches, an Application of a mac that
    has no endpoint entry followed by an Exited of that mac that returns
    without error leaves the endpoint map, every roster (a community
    created for the mac is removed again) and the ledger exactly as they
    were before the Application. *)
Theorem join_then_leave_restores_the_manager
    (events : list (Conn * Message)) (community mac : string) (conn : Conn) :
  let w := run events boot in
  macs (mgr w) !! mac = None →
  let joined := HandleApplication community mac conn w in
  let gone := HandleExited mac joined.1 in
  gone.2 = Ret nil →
  mgr gone.1 = mgr w.
Proof.
  intros w Hfresh joined gone Hok.
  assert (Hcons : consistent (mgr w)) by apply run_consistent, boot_consistent.
  assert (Hsound : ledger_sound (mgr w)) by (apply run_sound; [apply boot_consistent | apply boot_sound]).
  assert (Hcons' : consistent (mgr joined.1)) by (by apply HandleApplication_consistent).
  destruct (HandleApplication_fresh community mac conn w Hfresh) as (Hm & _).
  fold joined in Hm.
  assert (Hnot : ¬ registered (mgr w) mac).
  { rewrite (roster_iff_endpoint _ Hcons), Hfresh. by intros [? ?]. }
  assert (Hroster : roster (mgr joined.1) community = roster (mgr w) community ++ [mac]).
  { rewrite Hm. unfold roster at 1. simpl. by rewrite lookup_insert_eq. }
  assert (Hin : mac ∈ roster (mgr joined.1) community).
  { rewrite Hroster. apply elem_of_app. right. by apply list_elem_of_singleton. }
  destruct (HandleExited_spec mac joined.1)
    as [(Hno & _) | (key & i & new & Hi & _ & Hledger & Hcase)].
  { exfalso. apply Hno. by exists community. }
  fold gone in Hledger, Hcase.
  destruct Hcase as [(Hfail & _) | (_ & _ & Hmacs & Hcomm)]; [done|].
  assert (key = community) as ->.
  { apply (roster_disjoint _ Hcons' _ _ mac); [by eapply list_elem_of_lookup_2 | done]. }
  rewrite (delete_NoDup_filter _ _ mac) in Hcomm by (done || apply Hcons').
  rewrite Hroster, filter_app, filter_cons_False, filter_nil, app_nil_r in Hcomm
    by (intros Hne; by apply Hne).
  rewrite filter_all in Hcomm by (intros x Hx ->; apply Hnot; by exists community).
  rewrite Hm in Hmacs, Hcomm, Hledger. simpl in Hmacs, Hcomm, Hledger.
  rewrite delete_insert_id in Hmacs by done.
  assert (Hcomm' : communities (mgr gone.1) = communities (mgr w)).
  { rewrite Hcomm. unfold roster.
    destruct (communities (mgr w) !! community) as [l|] eqn:Hl; simpl.
    - destruct (decide (length l = 0)) as [Hlen|Hlen].
      + apply nil_length_inv in Hlen as ->. by apply (roster_nonempty _ Hcons) in Hl.
      + by rewrite insert_insert_eq, insert_id.
    - by rewrite delete_insert_id. }
  assert (Hledger' : introducedPeers (mgr gone.1) = introducedPeers (mgr w)).
  { rewrite Hledger, keep_unrelated_filter. apply filter_all.
    intros [a b] (c & Ha & Hb)%(ledger_live _ Hsound). simpl.
    split; intros ->; apply Hnot; by exists c. }
  by apply manager_eq.
Qed.

(** *** An exit that does not get through *)

(** X10. An Exited of a registered mac that does not return nil (a
    Resignation could not be written) stops half way: the pairs of the
    mac are already off the ledger, but the mac keeps its endpoint entry
    and its place on the roster, and no roster or endpoint changed. *)
Theorem failed_exit_keeps_the_member (mac : string) (w : World) :
  registered (mgr w) mac →
  let out := HandleExited mac w in
  out.2 ≠ Ret nil →
  communities (mgr out.1) = communities (mgr w) ∧
  macs (mgr out.1) = macs (mgr w) ∧
  introducedPeers (mgr out.1)
    = filter (λ p, p.1 ≠ mac ∧ p.2 ≠ mac) (introducedPeers (mgr w)).
Proof.
  intros Hreg out Hfail.
  destruct (HandleExited_spec mac w)
    as [(Hnot & _) | (key & i & new & _ & _ & Hledger & Hcase)]; [done|].
  fold out in Hledger, Hcase.
  destruct Hcase as [(_ & Hc & Hm) | (Hok & _)]; [|done].
  by rewrite Hledger, keep_unrelated_filter.
Qed.

(** X11. A relayed Offer, Answer or Candidate whose receiverMac has an
    endpoint entry is written, unchanged, on the connection of that entry
    and nowhere else; the handler returns what that write returns and
    changes nothing in the manager.  The senderMac is not looked at. *)
Theorem relay_forwards_on_the_receiver_connection
    (payload senderMac receiverMac : string) (receiver : Conn) (w : World) :
  macs (mgr w) !! receiverMac = Some receiver →
  wrote_only w receiverMac receiver (Offer payload senderMac receiverMac)
    (HandleOffer payload senderMac receiverMac w) ∧
  wrote_only w receiverMac receiver (Answer payload senderMac receiverMac)
    (HandleAnswer payload senderMac receiverMac w) ∧
  wrote_only w receiverMac receiver (Candidate payload senderMac receiverMac)
    (HandleCandidate payload senderMac receiverMac w).
Proof.
  intros Hreceiver.
  assert (Hsink : sink (mgr w) receiverMac = receiver).
  { unfold sink. by rewrite Hreceiver. }
  unfold HandleOffer, HandleAnswer, HandleCandidate, wrote_only.
  repeat split;
    match goal with |- context [relay ?r ?m w] =>
      destruct (relay_spec r m w) as (Hm & _ & Hw & Hr) end;
    rewrite Hsink in Hw, Hr; done.
Qed.

Transparent getCommunity.

End Spec.

(** *** The theorems at work on the two-peer community *)


Lemma at_most_one_introduction_per_pair_witness :
  let events := [(LiveConn 1, Ready "A"); (LiveConn 2, Ready "B"); (LiveConn 1, Ready "A")] in
  introductions "A" "B" (written two_peers (@run reliable plain_range events two_peers)) ≤ 1.
Proof.
  intros events.
  assert (Hquiet : nobody_exits events = true) by reflexivity.
  exact (proj1 (@at_most_one_introduction_per_pair reliable plain_range
                  events two_peers "A" "B" Hquiet)).
Defined.

Lemma exit_purges_and_notifies_witness :
  let events := [(LiveConn 1, Application "c" "A"); (LiveConn 2, Application "c" "B")] in
  let w := @run reliable plain_range events boot in
  let out := @HandleExited reliable plain_range "B" w in
  macs (mgr out.1) = delete "B"%string (macs (mgr w)) ∧
  ∀ c, "B"%string ∉ roster (mgr out.1) c.
Proof.
  intros events w out.
  assert (Hreg : registered (mgr w) "B").
  { exists "c"%string. vm_compute. right. left. }
  assert (Hok : out.2 = Ret nil) by (vm_compute; reflexivity).
  destruct (@exit_purges_and_notifies reliable plain_range events "B" Hreg Hok)
    as (key & _ & _ & _ & _ & Hmacs & Hgone & _).
  split; [exact Hmacs | exact Hgone].
Defined.

Lemma relay_to_missing_receiver_writes_on_zero_conn_witness :
  let out := @HandleOffer strict "o" "A" "C" two_peers in
  mgr out.1 = mgr two_peers ∧
  wire out.1 = wire two_peers ++ [mkWrite "C" ZeroConn (Offer "o" "A" "C") Panic] ∧
  out.2 = Panic.
Proof.
  assert (Hmissing : macs (mgr two_peers) !! "C"%string = None) by (vm_compute; reflexivity).
  destruct (@relay_to_missing_receiver_writes_on_zero_conn strict
              "o" "A" "C" two_peers Hmissing) as [((Hm & Hw & _) & _) Hpanics].
  assert (Hzero : ∀ msg, @wsjson_Write strict (wire two_peers) ZeroConn msg = Panic)
    by reflexivity.
  destruct (Hpanics Hzero) as (Hr & _).
  split; [exact Hm|]. split; [exact Hw | exact Hr].
Defined.

(** C4 as the specification states it fails: A, B and C have joined "c"
    and were accepted, then A's connection breaks.  Exited("C") gives up
    at the first Resignation: the handler returns that write's error, B
    is sent nothing, and C keeps its endpoint entry and its place on the
    roster. *)
Lemma exit_with_a_failed_resignation_keeps_the_mac :
  let events := [(LiveConn 1, Application "c" "A"); (LiveConn 2, Application "c" "B");
                 (LiveConn 3, Application "c" "C")] in
  let w := @run (breaking_after 3 (LiveConn 1)) plain_range events boot in
  let out := @HandleExited (breaking_after 3 (LiveConn 1)) plain_range "C" w in
  roster (mgr w) "c" = ["A"; "B"; "C"]%string ∧
  w_res <$> wire w = [Ret nil; Ret nil; Ret nil] ∧
  out.2 = Ret (Some "failed to write msg: broken pipe"%string) ∧
  w_to <$> written w out.1 = ["A"%string] ∧
  macs (mgr out.1) !! "C"%string = Some (LiveConn 3) ∧
  roster (mgr out.1) "c" = ["A"; "B"; "C"]%string.
Proof. vm_compute. done. Qed.

Lemma two_peers_consistent : consistent (mgr two_peers).
Proof. apply (@run_consistent reliable plain_range), boot_consistent. Qed.

Lemma application_of_fresh_mac_registers_witness :
  let out := @HandleApplication reliable "c" "C" (LiveConn 3) two_peers in
  roster (mgr out.1) "c" = ["A"; "B"; "C"]%string ∧ out.2 = Ret nil.
Proof.
  assert (Hfresh : macs (mgr two_peers) !! "C"%string = None) by (vm_compute; reflexivity).
  destruct (@application_of_fresh_mac_registers reliable "c" "C" (LiveConn 3)
              two_peers Hfresh) as (_ & Hroster & _ & _ & _ & Hr).
  split; [rewrite Hroster; vm_compute; reflexivity | exact Hr].
Defined.

Lemma getCommunity_finds_the_community_witness :
  (@getCommunity plain_range "A" two_peers).2 = Ret ("c"%string, nil).
Proof.
  assert (Hin : "A"%string ∈ roster (mgr two_peers) "c") by (vm_compute; left).
  exact (proj1 (@getCommunity_finds_the_community plain_range "A" "c" two_peers
                  two_peers_consistent) Hin).
Defined.

Lemma unknown_mac_is_refused_witness :
  let out := @HandleExited reliable plain_range "Z" two_peers in
  mgr out.1 = mgr two_peers ∧ out.2 = unknown_mac.
Proof.
  assert (Hnot : ¬ registered (mgr two_peers) "Z").
  { rewrite (roster_iff_endpoint _ two_peers_consistent). vm_compute. by intros [? [=]]. }
  destruct (@unknown_mac_is_refused reliable plain_range "Z" (LiveConn 9) two_peers Hnot)
    as (_ & Hm & _ & Hr).
  split; [exact Hm | exact Hr].
Defined.

Lemma ready_introduces_to_the_unintroduced_witness :
  let out := @HandleReady reliable plain_range "A" (LiveConn 1) two_peers in
  w_msg <$> written two_peers out.1 = [Introduction "A"] ∧
  introducedPeers (mgr out.1) = [("A", "B")]%string.
Proof.
  intros out.
  assert (Hin : "A"%string ∈ roster (mgr two_peers) "c") by (vm_compute; left).
  assert (Hok : out.2 = Ret nil) by (vm_compute; reflexivity).
  destruct (@ready_introduces_to_the_unintroduced reliable plain_range
              "A" "c" (LiveConn 1) two_peers two_peers_consistent Hin Hok)
    as (Hwritten & Hledger & _).
  unfold out. split; [rewrite Hwritten | rewrite Hledger]; vm_compute; reflexivity.
Defined.

Lemma ready_again_is_silent_witness :
  let out := @HandleReady reliable plain_range "A" (LiveConn 1) two_peers in
  let again := @HandleReady reliable plain_range "A" (LiveConn 1) out.1 in
  wire again.1 = wire out.1 ∧ again.2 = Ret nil.
Proof.
  intros out again.
  assert (Hreg : registered (mgr two_peers) "A") by (exists "c"%string; vm_compute; left).
  assert (Hok : out.2 = Ret nil) by (vm_compute; reflexivity).
  destruct (@ready_again_is_silent reliable plain_range "A" (LiveConn 1) (LiveConn 1)
              two_peers two_peers_consistent Hreg Hok) as (_ & Hw & Hr).
  split; [exact Hw | exact Hr].
Defined.

Lemma deleteCommunity_of_absent_string_drops_the_head_witness :
  deleteCommunity ["a"; "b"]%string "z" = Ret ["b"%string].
Proof.
  assert (Hnot : "z"%string ∉ ["a"; "b"]%string).
  { intros Hin. repeat (apply elem_of_cons in Hin as [Hin|Hin]; [discriminate|]).
    by apply elem_of_nil in Hin. }
  exact (deleteCommunity_of_absent_string_drops_the_head ["a"; "b"]%string "z" Hnot).
Defined.

Lemma deleteCommunity_removes_the_last_occurrence_witness :
  let s := ["b"; "a"; "b"; "c"]%string in
  ∃ i, deleteCommunity s "b" = Ret (take i s ++ drop (S i) s) ∧
       S (length (take i s ++ drop (S i) s)) = 4.
Proof.
  intros s.
  assert (Hin : "b"%string ∈ s) by left.
  destruct (deleteCommunity_removes_the_last_occurrence s "b" Hin)
    as (i & _ & _ & Hdel & Hlen).
  exists i. split; [exact Hdel | exact Hlen].
Defined.

Lemma join_then_leave_restores_the_manager_witness :
  let events := [(LiveConn 1, Application "c" "A"); (LiveConn 2, Application "c" "B")] in
  let w := @run reliable plain_range events boot in
  let joined := @HandleApplication reliable "d" "C" (LiveConn 3) w in
  mgr (@HandleExited reliable plain_range "C" joined.1).1 = mgr w.
Proof.
  intros events w joined.
  assert (Hfresh : macs (mgr w) !! "C"%string = None) by (vm_compute; reflexivity).
  assert (Hok : (@HandleExited reliable plain_range "C" joined.1).2 = Ret nil)
    by (vm_compute; reflexivity).
  exact (@join_then_leave_restores_the_manager reliable plain_range
           events "d" "C" (LiveConn 3) Hfresh Hok).
Defined.

Lemma failed_exit_keeps_the_member_witness :
  let out := @HandleExited (refusing (LiveConn 1)) plain_range "B" two_peers in
  macs (mgr out.1) = macs (mgr two_peers) ∧
  communities (mgr out.1) = communities (mgr two_peers).
Proof.
  intros out.
  assert (Hreg : registered (mgr two_peers) "B").
  { exists "c"%string. vm_compute. right. left. }
  assert (Hfail : out.2 ≠ Ret nil) by (vm_compute; discriminate).
  destruct (@failed_exit_keeps_the_member (refusing (LiveConn 1)) plain_range
              "B" two_peers Hreg Hfail) as (Hc & Hm & _).
  split; [exact Hm | exact Hc].
Defined.

Lemma relay_forwards_on_the_receiver_connection_witness :
  let out := @HandleOffer reliable "o" "A" "B" two_peers in
  wire out.1 = wire two_peers ++ [mkWrite "B" (LiveConn 2) (Offer "o" "A" "B") (Ret nil)] ∧
  out.2 = Ret nil.
Proof.
  assert (Hreceiver : macs (mgr two_peers) !! "B"%string = Some (LiveConn 2))
    by (vm_compute; reflexivity).
  destruct (@relay_forwards_on_the_receiver_connection reliable
              "o" "A" "B" (LiveConn 2) two_peers Hreceiver) as ((_ & Hw & Hr) & _).
  split; [exact Hw | exact Hr].
Defined.

(** C7 as the specification states it fails: with "C" gone from the
    endpoint map, relaying A's Offer to "C" makes the write on the
    zero-valued connection, which panics: the handler does not return
    nil, it does not return at all. *)
Lemma relay_to_missing_receiver_panics :
  macs (mgr two_peers) !! "C"%string = None ∧
  (@Server.HandleOffer strict "o" "A" "C" two_peers).2 = Panic ∧
  (@Server.HandleOffer strict "o" "A" "C" two_peers).2 ≠ Ret nil.
Proof. vm_compute. repeat split; discriminate. Qed.

End ServerSpec.


(** ** The client: properties *)

Module ClientSpec.
Import Client.

Ltac unmonad :=
  unfold mbind, mret, M_bind, M_ret, check, bind, ret, gets, modify, panic in *;
  simpl in *.

Section Spec.
Context `{!Transport, !PeerStack, !MapRange}.

Lemma the_peer_present key w p :
  peers (cm w) !! key = Some p → the_peer key w = (w, Ret p).
Proof. intros Hp. unfold the_peer. by rewrite Hp. Qed.

Lemma the_peer_absent key w :
  peers (cm w) !! key = None → the_peer key w = (w, Panic).
Proof. intros Hp. unfold the_peer. by rewrite Hp. Qed.

Lemma call_on_present key c e effect w p :
  peers (cm w) !! key = Some p →
  call_on key c e effect w
  = (with_peers (<[key := called p c (e (connection p)) effect]> (peers (cm w))) w,
     Ret (e (connection p))).
Proof.
  intros Hp. unfold call_on. unmonad. by rewrite (the_peer_present _ _ _ Hp).
Qed.

(** *** Draining the candidate buffer *)

Lemma drain_spec key buffer w p :
  peers (cm w) !! key = Some p →
  let out := drain key buffer w in
  ∃ p' done,
    out.1 = with_peers (<[key := p']> (peers (cm w))) w ∧
    candidates p' = candidates p ∧
    channel p' = channel p ∧
    remoteDescription (connection p') = remoteDescription (connection p) ∧
    calls (connection p') = calls (connection p) ++ done ∧
    out.2 ≠ Panic ∧
    (out.2 = Ret nil → done = drained buffer).
Proof.
  revert w p. induction buffer as [|candidate rest IH]; intros w p Hp; simpl.
  - exists p, []. rewrite app_nil_r. repeat split; try done.
    unfold with_peers, with_cm. rewrite insert_id by done. by destruct w as [[? ?] ? ?].
  - unfold do_AddICECandidate. unmonad. rewrite (call_on_present _ _ _ _ _ _ Hp).
    destruct (pc_AddICECandidate (connection p) candidate) as [e|] eqn:Herr.
    + eexists _, _. simpl. repeat split; try done.
    + set (p1 := called p (AddICECandidate candidate) None id).
      set (w1 := with_peers _ w).
      destruct (IH w1 p1) as (p' & done & Hout & Hc & Hch & Hrd & Hcalls & Hnp & Hdone).
      { apply lookup_insert_eq. }
      exists p', ((AddICECandidate candidate, nil) :: done).
      rewrite Hout. repeat split; try done.
      * unfold w1, with_peers, with_cm. simpl. by rewrite insert_insert_eq.
      * rewrite Hcalls. simpl. by rewrite <- app_assoc.
      * intros Hok. by rewrite (Hdone Hok).
Qed.

(** *** Answer *)

Lemma do_SetRemoteDescription_present key sd w p :
  peers (cm w) !! key = Some p →
  do_SetRemoteDescription key sd w
  = (with_peers (<[key := called p (SetRemoteDescription sd)
                            (pc_SetRemoteDescription (connection p) sd)
                            (λ pc, {| pc_id := pc_id pc; remoteDescription := Some sd;
                                      calls := calls pc |})]> (peers (cm w))) w,
     Ret (pc_SetRemoteDescription (connection p) sd)).
Proof. intros Hp. unfold do_SetRemoteDescription. by rewrite (call_on_present _ _ _ _ _ p). Qed.

(** C6. An Answer from a remote that has a peer entry, when the handler
    returns without error: the payload was installed as the remote
    description first, then every buffered candidate was fed to the
    connection by AddICECandidate in insertion order, and the buffer is
    empty; the data channel and the entries of other remotes are as
    they were. *)
Theorem answer_installs_then_drains
    (payload senderMac receiverMac : string) (w : World) (p : peer) :
  peers (cm w) !! senderMac = Some p →
  let out := HandleAnswer payload senderMac receiverMac w in
  out.2 = Ret nil →
  ∃ answer_val p',
    json_Unmarshal payload = inl answer_val ∧
    peers (cm out.1) !! senderMac = Some p' ∧
    candidates p' = [] ∧
    remoteDescription (connection p') = Some answer_val ∧
    calls (connection p')
      = calls (connection p)
          ++ (SetRemoteDescription answer_val, nil) :: drained (candidates p) ∧
    channel p' = channel p ∧
    (∀ key, key ≠ senderMac → peers (cm out.1) !! key = peers (cm w) !! key).
Proof.
  intros Hp. unfold HandleAnswer, getPeerConnection.
  destruct (json_Unmarshal payload) as [answer_val|e]; [|by unmonad].
  unmonad. rewrite (the_peer_present _ _ _ Hp). simpl.
  rewrite (do_SetRemoteDescription_present _ _ _ _ Hp).
  destruct (pc_SetRemoteDescription (connection p) answer_val) as [e|]; [done|].
  set (p1 := called p _ None _). set (w1 := with_peers _ w).
  assert (Hp1 : peers (cm w1) !! senderMac = Some p1) by apply lookup_insert_eq.
  rewrite (the_peer_present _ _ _ Hp1).
  destruct (decide (0 < length (candidates p1))) as [Hlen|Hlen].
  - destruct (drain_spec senderMac (candidates p1) w1 p1 Hp1)
      as (p2 & done & Hout & Hc & Hch & Hrd & Hcalls & Hnp & Hdone).
    destruct (drain senderMac (candidates p1) w1) as [w2 r2]. simpl in Hout, Hnp, Hdone.
    subst w2. destruct r2 as [[e|]|]; [done| |done].
    unfold set_candidates, set_peers. unmonad.
    rewrite (the_peer_present senderMac _ p2) by apply lookup_insert_eq. simpl.
    unfold wg_Done. simpl. destruct (wg w); [done|]. simpl. intros _.
    eexists answer_val, _. split; [done|]. split; [apply lookup_insert_eq|]. simpl.
    split; [done|]. split; [by rewrite Hrd|]. split; [|split; [by rewrite Hch|]].
    + rewrite Hcalls, Hdone by done. simpl. by rewrite <- app_assoc.
    + intros key Hkey. by rewrite !lookup_insert_ne.
  - assert (Hnil : candidates p = []) by (apply nil_length_inv; simpl in Hlen; lia).
    simpl. unfold wg_Done. simpl. destruct (wg w); [done|]. simpl. intros _.
    exists answer_val, p1. split; [done|]. split; [apply lookup_insert_eq|]. simpl.
    rewrite Hnil. repeat split; try done.
    intros key Hkey. by rewrite lookup_insert_ne.
Qed.

(** *** The peer lookup *)

(** C9. An Answer or Candidate whose senderMac has no peer entry: the
    lookup dereferences the absent entry and panics, in the state it
    was called in, so neither handler returns an error for the missing
    peer (an Answer whose payload does not parse returns the parse
    error before the lookup).  [getPeerConnection] never returns an
    error: whenever the entry exists it returns the entry's connection
    and nil. *)
Theorem lookup_of_unknown_sender_panics
    (payload senderMac receiverMac : string) (w : World) :
  peers (cm w) !! senderMac = None →
  getPeerConnection senderMac w = (w, Panic) ∧
  HandleCandidate payload senderMac receiverMac w = (w, Panic) ∧
  HandleAnswer payload senderMac receiverMac w
    = (w, match json_Unmarshal payload with
          | inl _ => Panic
          | inr e => Ret (Some e)
          end) ∧
  (∀ key w0 w1 pc err, getPeerConnection key w0 = (w1, Ret (pc, err)) → err = nil) ∧
  (∀ key w0 p, peers (cm w0) !! key = Some p →
               getPeerConnection key w0 = (w0, Ret (connection p, nil))).
Proof.
  intros Hmissing.
  assert (Hget : getPeerConnection senderMac w = (w, Panic)).
  { unfold getPeerConnection. unmonad. by rewrite (the_peer_absent _ _ Hmissing). }
  split; [done|]. split; [|split; [|split]].
  - unfold HandleCandidate. unmonad. by rewrite Hget.
  - unfold HandleAnswer. destruct (json_Unmarshal payload); [|done].
    unmonad. by rewrite Hget.
  - intros key w0 w1 pc err. unfold getPeerConnection, the_peer. unmonad.
    destruct (peers (cm w0) !! key); [|done]. by intros [= _ _ <-].
  - intros key w0 p Hp. unfold getPeerConnection. unmonad.
    by rewrite (the_peer_present _ _ _ Hp).
Qed.

(** *** Resignation *)

(** C8, as the code has it. The handler for a Resignation is not given
    the mac that resigned and does nothing: it returns nil, and after the
    dispatch of Resignation(remote) the peer map, with every connection,
    data channel and candidate buffer in it, and everything else the
    client holds are exactly as before. *)
Theorem resignation_changes_nothing (remote : string) (w : World) :
  HandleResignation w = (w, Ret nil) ∧
  dispatch (Resignation remote) w = (w, Ret tt).
Proof. done. Qed.

(** *** Sending on the data channels *)

Lemma channel_Send_spec key data w :
  channel_Send key data w
  = match peers (cm w) !! key with
    | None => (w, Panic)
    | Some p =>
        match channel p with
        | None => (w, Panic)
        | Some dc => send key dc data w
        end
    end.
Proof.
  unfold channel_Send, the_peer. unmonad.
  destruct (peers (cm w) !! key) as [p|]; [|done]. by destruct (channel p).
Qed.

(** The loop stops at the first key that is not the client's own mac,
    whatever the send on that peer's channel yields. *)
Lemma SendMessage_loop_spec keys wrappedMsg w :
  SendMessage_loop keys wrappedMsg w
  = match list_find (λ key, key ≠ mac (cm w)) keys with
    | None => (w, Ret nil)
    | Some (_, key) =>
        match peers (cm w) !! key with
        | None => (w, Panic)
        | Some p =>
            match channel p with
            | None => (w, Panic)
            | Some dc => ((send key dc wrappedMsg w).1, Ret nil)
            end
        end
    end.
Proof.
  induction keys as [|key rest IH]; simpl; [done|].
  unmonad. destruct (decide (key ≠ mac (cm w))) as [Hne|Heq]; simpl.
  - rewrite channel_Send_spec.
    destruct (peers (cm w) !! key) as [p|]; [|done].
    destruct (channel p) as [dc|]; [|done].
    unfold send. simpl. by destruct (dc_Send (sent w) dc wrappedMsg).
  - rewrite IH. by destruct (list_find _ rest) as [[i k]|].
Qed.

Lemma range_peers_keys w key :
  key ∈ (range_order (ticks w) (peers (cm w))).*1 ↔ is_Some (peers (cm w) !! key).
Proof.
  rewrite list_elem_of_fmap. split.
  - intros ([k p] & -> & Hin). rewrite range_order_perm in Hin.
    apply elem_of_map_to_list in Hin. by exists p.
  - intros [p Hp]. exists (key, p). split; [done|].
    rewrite range_order_perm. by apply elem_of_map_to_list.
Qed.

(** C10. With a peer other than the client itself in the map and a
    message that marshals: [SendMessage] sends on the channel of one
    peer only, the first eligible one the loop visits, and returns nil
    whether that send failed or not (it panics when that peer's channel
    is not open yet); it never returns a send error.
    [SendMessageUnicast] returns nil in both cases as well. *)
Theorem send_failure_is_never_reported (msg wrappedMsg : string) (w : World) :
  json_Marshal_wrapped (mac (cm w)) msg = inl wrappedMsg →
  (∃ key, key ≠ mac (cm w) ∧ is_Some (peers (cm w) !! key)) →
  let out := SendMessage msg w in
  (∃ key p,
     peers (cm w) !! key = Some p ∧ key ≠ mac (cm w) ∧
     match channel p with
     | Some dc =>
         sent out.1
           = sent w ++ [mkSent key dc wrappedMsg (dc_Send (sent w) dc wrappedMsg)] ∧
         out.2 = Ret nil
     | None => sent out.1 = sent w ∧ out.2 = Panic
     end) ∧
  length (sent out.1) ≤ S (length (sent w)) ∧
  (∀ e, out.2 ≠ Ret (Some e)) ∧
  (∀ key p dc,
     peers (cm w) !! key = Some p → channel p = Some dc →
     let out' := SendMessageUnicast msg key w in
     sent out'.1 = sent w ++ [mkSent key dc wrappedMsg (dc_Send (sent w) dc wrappedMsg)] ∧
     out'.2 = Ret nil).
Proof.
  intros Hmarshal (eligible & Hne & Hsome) out.
  assert (Hfirst : ∃ key p,
             peers (cm w) !! key = Some p ∧ key ≠ mac (cm w) ∧
             match channel p with
             | Some dc =>
                 sent out.1
                   = sent w ++ [mkSent key dc wrappedMsg (dc_Send (sent w) dc wrappedMsg)] ∧
                 out.2 = Ret nil
             | None => sent out.1 = sent w ∧ out.2 = Panic
             end).
  { unfold out, SendMessage, range_peers. unmonad. rewrite Hmarshal.
    rewrite SendMessage_loop_spec. simpl.
    destruct (list_find _ _) as [[i key]|] eqn:Hfind.
    - apply list_find_Some in Hfind as (Hkey%list_elem_of_lookup_2 & Hkne & _).
      apply range_peers_keys in Hkey as [p Hp]. rewrite Hp.
      exists key, p. split; [done|]. split; [done|].
      by destruct (channel p) as [dc|].
    - exfalso. apply list_find_None in Hfind.
      apply range_peers_keys in Hsome.
      by apply (proj1 (Forall_forall _ _) Hfind eligible Hsome). }
  split; [exact Hfirst|].
  destruct Hfirst as (key & p & _ & _ & Hcase).
  split; [|split].
  - destruct (channel p); destruct Hcase as [-> _]; [rewrite length_app; simpl|]; lia.
  - intros e. destruct (channel p); destruct Hcase as [_ ->]; done.
  - intros key' p' dc Hp' Hdc. unfold SendMessageUnicast. unmonad. rewrite Hmarshal.
    rewrite channel_Send_spec, Hp', Hdc. unfold send. simpl.
    by destruct (dc_Send (sent w) dc wrappedMsg).
Qed.

(** *** Offers and introductions *)




(** *** Candidates *)

Lemma HandleCandidate_early payload senderMac receiverMac w p :
  peers (cm w) !! senderMac = Some p →
  remoteDescription (connection p) = None →
  HandleCandidate payload senderMac receiverMac w
  = (with_peers (<[senderMac := {| connection := connection p; channel := channel p;
                                   candidates := candidates p ++ [payload] |}]>
                   (peers (cm w))) w,
     Ret nil).
Proof.
  intros Hp Hrd.
  unfold HandleCandidate, getPeerConnection, set_candidates, set_peers, the_peer.
  unmonad. rewrite Hp. simpl. rewrite Hp, Hrd. simpl. by rewrite Hp.
Qed.

(** X14. A Candidate from a remote that has a peer entry.  Without a
    remote description it is put at the end of the buffer and no call is
    made on the connection.  With one, AddICECandidate is called: when
    that fails the handler returns the error and does not buffer the
    candidate; when it succeeds the candidate is put at the end of the
    buffer as well.  The data channel and the remote description are as
    before. *)
Theorem candidate_is_buffered_and_applied_when_described
    (payload senderMac receiverMac : string) (w : World) (p : peer) :
  peers (cm w) !! senderMac = Some p →
  let out := HandleCandidate payload senderMac receiverMac w in
  ∃ p',
    peers (cm out.1) !! senderMac = Some p' ∧
    channel p' = channel p ∧
    remoteDescription (connection p') = remoteDescription (connection p) ∧
    match remoteDescription (connection p), pc_AddICECandidate (connection p) payload with
    | None, _ =>
        calls (connection p') = calls (connection p) ∧
        candidates p' = candidates p ++ [payload] ∧
        out.2 = Ret nil
    | Some _, None =>
        calls (connection p') = calls (connection p) ++ [(AddICECandidate payload, nil)] ∧
        candidates p' = candidates p ++ [payload] ∧
        out.2 = Ret nil
    | Some _, Some e =>
        calls (connection p') = calls (connection p) ++ [(AddICECandidate payload, Some e)] ∧
        candidates p' = candidates p ∧
        out.2 = Ret (Some e)
    end.
Proof.
  intros Hp. destruct (remoteDescription (connection p)) as [sd|] eqn:Hrd.
  - unfold HandleCandidate, getPeerConnection, do_AddICECandidate, call_on,
      set_candidates, set_peers, the_peer.
    unmonad. rewrite Hp. simpl. rewrite Hp, Hrd. simpl. rewrite Hp. simpl.
    destruct (pc_AddICECandidate (connection p) payload) as [e|]; simpl;
      rewrite ?lookup_insert_eq; simpl; rewrite ?lookup_insert_eq;
      eexists; (split; [reflexivity|]); by simpl.
  - simpl. rewrite (HandleCandidate_early _ _ _ _ _ Hp Hrd). simpl.
    rewrite lookup_insert_eq. eexists. split; [reflexivity|]. by simpl.
Qed.

(** X15. Candidates that arrive before the remote description is
    installed are kept in arrival order: after any number of them from
    one remote, the buffer of that remote is the old buffer followed by
    their payloads, no call has been made on its connection, and the
    entries of the other remotes are as they were. *)
Theorem early_candidates_queue_in_arrival_order
    (payloads : list string) (senderMac receiverMac : string) (w : World) (p : peer) :
  peers (cm w) !! senderMac = Some p →
  remoteDescription (connection p) = None →
  let w' := run ((λ payload, Candidate payload senderMac receiverMac) <$> payloads) w in
  peers (cm w')
  = <[senderMac := {| connection := connection p; channel := channel p;
                      candidates := candidates p ++ payloads |}]> (peers (cm w)).
Proof.
  revert w p. induction payloads as [|payload rest IH]; intros w p Hp Hrd; simpl.
  - rewrite app_nil_r. symmetry. apply insert_id. by destruct p.
  - unmonad. rewrite (HandleCandidate_early _ _ _ _ _ Hp Hrd). simpl.
    match goal with |- context [run _ ?w1] => set (w1' := w1) end.
    etrans; [apply (IH w1' {| connection := connection p; channel := channel p;
                               candidates := candidates p ++ [payload] |});
             [apply lookup_insert_eq | done] |].
    simpl. by rewrite insert_insert_eq, <- app_assoc.
Qed.

(** *** What an Answer leaves behind when it does not succeed *)

Lemma HandleAnswer_cases payload senderMac receiverMac w p :
  peers (cm w) !! senderMac = Some p →
  let out := HandleAnswer payload senderMac receiverMac w in
  (out.2 = Ret nil → wg w = S (wg out.1)) ∧
  (out.2 = Panic → wg w = 0) ∧
  (∀ e, out.2 = Ret (Some e) →
        wg out.1 = wg w ∧
        ∃ p', peers (cm out.1) !! senderMac = Some p' ∧ candidates p' = candidates p).
Proof.
  intros Hp. unfold HandleAnswer, getPeerConnection.
  destruct (json_Unmarshal payload) as [answer_val|e0].
  2: { unmonad. split; [done|]. split; [done|]. intros e _. split; [done | by exists p]. }
  unmonad. rewrite (the_peer_present _ _ _ Hp). simpl.
  rewrite (do_SetRemoteDescription_present _ _ _ _ Hp).
  destruct (pc_SetRemoteDescription (connection p) answer_val) as [e0|].
  { simpl. split; [done|]. split; [done|]. intros e _. split; [done|].
    eexists. split; [apply lookup_insert_eq | done]. }
  set (p1 := called p _ None _). set (w1 := with_peers _ w).
  assert (Hp1 : peers (cm w1) !! senderMac = Some p1) by apply lookup_insert_eq.
  rewrite (the_peer_present _ _ _ Hp1).
  destruct (decide (0 < length (candidates p1))) as [Hlen|Hlen].
  - destruct (drain_spec senderMac (candidates p1) w1 p1 Hp1)
      as (p2 & done & Hout & Hc & Hch & Hrd & Hcalls & Hnp & Hdone).
    destruct (drain senderMac (candidates p1) w1) as [w2 r2]. simpl in Hout, Hnp, Hdone.
    subst w2. destruct r2 as [[e0|]|]; [|clear Hnp|done].
    + simpl. split; [done|]. split; [done|]. intros e _. split; [done|].
      exists p2. split; [apply lookup_insert_eq | by rewrite Hc].
    + unfold set_candidates, set_peers. unmonad.
      rewrite (the_peer_present senderMac _ p2) by apply lookup_insert_eq. simpl.
      unfold wg_Done. simpl. destruct (wg w); simpl; (split; [done|]; split; done).
  - simpl. unfold wg_Done. simpl. destruct (wg w); simpl; (split; [done|]; split; done).
Qed.

(** X16. An Answer from a remote that has a peer entry, when the
    handler returns an error (the payload does not parse, the description
    is refused, or a buffered candidate is refused): the candidate buffer
    of that remote is what it was, also when some of its candidates were
    applied before the one that failed, and the WaitGroup counter is not
    lowered. *)
Theorem failed_answer_keeps_the_buffer
    (payload senderMac receiverMac e : string) (w : World) (p : peer) :
  peers (cm w) !! senderMac = Some p →
  let out := HandleAnswer payload senderMac receiverMac w in
  out.2 = Ret (Some e) →
  wg out.1 = wg w ∧
  ∃ p', peers (cm out.1) !! senderMac = Some p' ∧ candidates p' = candidates p.
Proof.
  intros Hp out Herr.
  destruct (HandleAnswer_cases payload senderMac receiverMac w p Hp) as (_ & _ & Hcase).
  by apply (Hcase e).
Qed.

(** X17. [HandleAnswer] ends with wg.Done(): whenever it returns nil
    the WaitGroup counter was positive and is now one lower, so an Answer
    that arrives when the counter is zero never returns nil. *)
Theorem answer_needs_a_pending_wait
    (payload senderMac receiverMac : string) (w : World) :
  let out := HandleAnswer payload senderMac receiverMac w in
  (out.2 = Ret nil → wg w = S (wg out.1)) ∧
  (wg w = 0 → out.2 ≠ Ret nil).
Proof.
  intros out.
  assert (Hdone : out.2 = Ret nil → wg w = S (wg out.1)).
  { destruct (peers (cm w) !! senderMac) as [p|] eqn:Hp.
    - by destruct (HandleAnswer_cases payload senderMac receiverMac w p Hp) as (Hok & _).
    - unfold out, HandleAnswer, getPeerConnection.
      destruct (json_Unmarshal payload); [|done].
      unmonad. by rewrite (the_peer_absent _ _ Hp). }
  split; [done|]. intros Hzero Hok. specialize (Hdone Hok). lia.
Qed.

(** *** Sending when there is nobody to send to, or no channel yet *)

(** X18. [SendMessage] with no peer but, possibly, an entry under the
    client's own mac: nothing is sent and nil is returned; a message that
    does not marshal returns the marshalling error instead.  The peer map
    is not touched. *)
Theorem send_without_peers_sends_nothing (msg : string) (w : World) :
  (∀ key, is_Some (peers (cm w) !! key) → key = mac (cm w)) →
  let out := SendMessage msg w in
  sent out.1 = sent w ∧
  cm out.1 = cm w ∧
  out.2 = match json_Marshal_wrapped (mac (cm w)) msg with
          | inl _ => Ret nil
          | inr e => Ret (Some e)
          end.
Proof.
  intros Honly. unfold SendMessage, range_peers. unmonad.
  destruct (json_Marshal_wrapped (mac (cm w)) msg) as [wrappedMsg|e]; [|done].
  rewrite SendMessage_loop_spec. simpl.
  destruct (list_find _ _) as [[i key]|] eqn:Hfind; [|done].
  apply list_find_Some in Hfind as (Hkey%list_elem_of_lookup_2 & Hne & _).
  apply range_peers_keys in Hkey. by apply Honly in Hkey.
Qed.

Lemma onOpen_present key dc w p :
  peers (cm w) !! key = Some p →
  onOpen key dc w
  = ({| cm := {| peers := <[key := {| connection := connection p; channel := Some dc;
                                      candidates := candidates p |}]> (peers (cm w));
                 mac := mac (cm w) |};
        conn := conn w; uuid := uuid w; wg := wg w; wire := wire w; sent := sent w;
        created := created w; connected := S (connected w); ticks := ticks w |},
     Ret tt).
Proof.
  intros Hp. unfold onOpen, set_channel, set_peers, the_peer. unmonad. by rewrite Hp.
Qed.

(** X19. Once the data channel of a peer has opened, a unicast to that
    peer makes one Send, on that channel, of the marshalled message, and
    returns nil whatever the Send returned; the open itself counts one
    more connected peer and keeps the connection and the buffer of the
    entry. *)
Theorem unicast_after_open_sends_on_the_channel
    (key msg wrappedMsg : string) (dc : DataChannel) (w : World) (p : peer) :
  peers (cm w) !! key = Some p →
  json_Marshal_wrapped (mac (cm w)) msg = inl wrappedMsg →
  let opened := (onOpen key dc w).1 in
  let out := SendMessageUnicast msg key opened in
  connected opened = S (connected w) ∧
  peers (cm opened) !! key
    = Some {| connection := connection p; channel := Some dc; candidates := candidates p |} ∧
  sent out.1 = sent w ++ [mkSent key dc wrappedMsg (dc_Send (sent w) dc wrappedMsg)] ∧
  out.2 = Ret nil.
Proof.
  intros Hp Hmarshal. rewrite (onOpen_present _ _ _ _ Hp). simpl.
  rewrite lookup_insert_eq. split; [done|]. split; [done|].
  unfold SendMessageUnicast. unmonad. rewrite Hmarshal, channel_Send_spec. simpl.
  rewrite lookup_insert_eq. unfold send. simpl.
  by destruct (dc_Send (sent w) dc wrappedMsg).
Qed.

(** X20. A unicast to a mac that has no peer entry, or whose data
    channel has not opened yet, panics (nil dereference) once the message
    has marshalled, and leaves the client as it was; the same holds for
    the callback of a data channel that opens for a mac without entry. *)
Theorem unicast_without_channel_panics
    (key msg wrappedMsg : string) (dc : DataChannel) (w : World) :
  json_Marshal_wrapped (mac (cm w)) msg = inl wrappedMsg →
  channel <$> peers (cm w) !! key = None ∨ channel <$> peers (cm w) !! key = Some None →
  SendMessageUnicast msg key w = (w, Panic) ∧
  (peers (cm w) !! key = None → onOpen key dc w = (w, Panic)).
Proof.
  intros Hmarshal Hno. split.
  - unfold SendMessageUnicast. unmonad. rewrite Hmarshal, channel_Send_spec.
    destruct (peers (cm w) !! key) as [p|]; [|done]. simpl in Hno.
    destruct (channel p); [|done]. by destruct Hno.
  - intros Hp. unfold onOpen, set_channel, the_peer. unmonad. by rewrite Hp.
Qed.

(** *** Peer entries are never removed *)

Lemma keeps_peers_refl w : keeps_peers w w.
Proof. by intros key. Qed.

Lemma keeps_peers_trans w1 w2 w3 :
  keeps_peers w1 w2 → keeps_peers w2 w3 → keeps_peers w1 w3.
Proof. intros H12 H23 key Hkey. by apply H23, H12. Qed.

Lemma Keeps_ret {A} (a : A) : Keeps (mret a).
Proof. intros w. apply keeps_peers_refl. Qed.

Lemma Keeps_panic {A} : Keeps (@panic World A).
Proof. intros w. apply keeps_peers_refl. Qed.

Lemma Keeps_gets {A} (f : World → A) : Keeps (gets f).
Proof. intros w. apply keeps_peers_refl. Qed.

Lemma Keeps_bind {A B} (c : M World A) (k : A → M World B) :
  Keeps c → (∀ a, Keeps (k a)) → Keeps (c ≫= k).
Proof.
  intros Hc Hk w. unmonad. specialize (Hc w).
  destruct (c w) as [w1 [a|]]; simpl in *; [|done].
  eapply keeps_peers_trans; [done | apply Hk].
Qed.

Lemma Keeps_check (c k : M World error) : Keeps c → Keeps k → Keeps (check c k).
Proof.
  intros Hc Hk. unfold check. apply (Keeps_bind c); [done|].
  intros [e|]; [apply (Keeps_ret (A:=error)) | done].
Qed.

Lemma Keeps_same_peers {A} (c : M World A) :
  (∀ w, peers (cm (c w).1) = peers (cm w)) → Keeps c.
Proof. intros Hsame w key. by rewrite Hsame. Qed.

Lemma Keeps_insert key (p : peer) : Keeps (set_peers <[key := p]>).
Proof.
  intros w k Hk. simpl. apply lookup_insert_is_Some'. by right.
Qed.

Lemma Keeps_the_peer key : Keeps (the_peer key).
Proof. apply Keeps_same_peers. intros w. unfold the_peer. by destruct (_ !! key). Qed.

Lemma Keeps_write to msg : Keeps (write to msg).
Proof. by apply Keeps_same_peers. Qed.

Lemma Keeps_wg_Done : Keeps wg_Done.
Proof. apply Keeps_same_peers. intros w. unfold wg_Done. by destruct (wg w). Qed.

Lemma Keeps_call_on key c e effect : Keeps (call_on key c e effect).
Proof.
  unfold call_on. apply Keeps_bind; [apply Keeps_the_peer|]. intros p.
  apply Keeps_bind; [apply Keeps_insert | intros; apply Keeps_ret].
Qed.

Lemma Keeps_set_candidates key f : Keeps (set_candidates key f).
Proof.
  unfold set_candidates. apply Keeps_bind; [apply Keeps_the_peer|]. intros p.
  apply Keeps_insert.
Qed.

Lemma Keeps_createPeer key : Keeps (createPeer key).
Proof.
  unfold createPeer. apply Keeps_bind; [apply Keeps_gets|]. intros n.
  destruct (webrtc_NewPeerConnection n); [apply Keeps_ret|].
  apply Keeps_bind; [by apply Keeps_same_peers|]. intros _.
  apply Keeps_bind; [apply Keeps_insert | intros; apply Keeps_ret].
Qed.

Lemma Keeps_drain key buffer : Keeps (drain key buffer).
Proof.
  induction buffer as [|candidate rest IH]; simpl; [apply Keeps_ret|].
  apply Keeps_check; [apply Keeps_call_on | done].
Qed.

(** Takes a handler apart along its binds, checks and branches. *)
Ltac keeps :=
  repeat first
    [ apply Keeps_ret | apply Keeps_panic | apply Keeps_gets | apply Keeps_the_peer
    | apply Keeps_write | apply Keeps_wg_Done | apply Keeps_call_on
    | apply Keeps_set_candidates | apply Keeps_createPeer | apply Keeps_drain
    | apply Keeps_insert
    | apply Keeps_check
    | apply Keeps_bind; [|intros ?]
    | match goal with
      | |- Keeps (match ?x with _ => _ end) => destruct x
      end
    | by apply Keeps_same_peers ].

Lemma Keeps_HandleAcceptance : Keeps HandleAcceptance.
Proof. unfold HandleAcceptance, set_mac. keeps. Qed.

Lemma Keeps_HandleIntroduction introMac : Keeps (HandleIntroduction introMac).
Proof.
  unfold HandleIntroduction, wg_Add, createDataChannel, do_CreateOffer,
    do_SetLocalDescription.
  keeps.
Qed.

Lemma Keeps_HandleOffer payload senderMac receiverMac :
  Keeps (HandleOffer payload senderMac receiverMac).
Proof.
  unfold HandleOffer, wg_Add, do_SetRemoteDescription, do_CreateAnswer,
    do_SetLocalDescription.
  keeps.
Qed.

Lemma Keeps_HandleAnswer payload senderMac receiverMac :
  Keeps (HandleAnswer payload senderMac receiverMac).
Proof.
  unfold HandleAnswer, getPeerConnection, do_SetRemoteDescription. keeps.
Qed.

Lemma Keeps_HandleCandidate payload senderMac receiverMac :
  Keeps (HandleCandidate payload senderMac receiverMac).
Proof.
  unfold HandleCandidate, getPeerConnection, do_AddICECandidate. keeps.
Qed.

Lemma Keeps_dispatch msg : Keeps (dispatch msg).
Proof.
  destruct msg; simpl; try apply Keeps_ret;
    (apply Keeps_bind; [|intros; apply Keeps_ret]).
  - apply Keeps_HandleAcceptance.
  - apply Keeps_HandleIntroduction.
  - apply Keeps_HandleOffer.
  - apply Keeps_HandleAnswer.
  - apply Keeps_HandleCandidate.
Qed.

(** X21. The client never removes a peer entry: whatever messages it
    dispatches (Resignation included), and whatever its handlers yield, a
    mac that has an entry in the peer map keeps one. *)
Theorem peer_entries_are_never_removed (msgs : list Message) (w : World) (key : string) :
  is_Some (peers (cm w) !! key) →
  is_Some (peers (cm (run msgs w)) !! key).
Proof.
  revert w. induction msgs as [|msg rest IH]; intros w Hkey; simpl; [done|].
  by apply IH, Keeps_dispatch.
Qed.

End Spec.

(** *** The theorems at work on a client that has sent its offers *)

(** C1, where the code departs from it. "me" has offered to "R"; a
    first (provisional) Answer of R arrives, then one Candidate from R,
    which is applied at once since a remote description is installed,
    and is put in the buffer all the same; the final Answer of R drains
    the buffer and applies the candidate again: one Candidate message,
    two AddICECandidate calls on R's connection. *)
Theorem candidate_buffered_after_being_applied_is_applied_twice :
  let msgs := [Answer "pranswer" "R" "me"; Candidate "c" "R" "me";
               Answer "answer" "R" "me"] in
  let w := @run reliable willing msgs offering in
  candidates_from "R" msgs = 1 ∧
  (added ∘ connection) <$> peers (cm w) !! "R"%string
  = Some [(AddICECandidate "c", nil); (AddICECandidate "c", nil)].
Proof. vm_compute. done. Qed.

Lemma answer_installs_then_drains_witness :
  let w := @run reliable willing
             [Candidate "c1" "R" "me"; Candidate "c2" "R" "me"] offering in
  let out := @HandleAnswer willing "a" "R" "me" w in
  ∃ p', peers (cm out.1) !! "R"%string = Some p' ∧
        candidates p' = [] ∧
        remoteDescription (connection p') = Some "a"%string.
Proof.
  intros w out.
  destruct (peers (cm w) !! "R"%string) as [p|] eqn:Hp;
    [|vm_compute in Hp; discriminate].
  assert (Hok : out.2 = Ret nil) by (vm_compute; reflexivity).
  destruct (@answer_installs_then_drains willing "a" "R" "me" w p Hp Hok)
    as (sd & p' & Hsd & Hp' & Hbuf & Hrd & _).
  exists p'. split; [exact Hp'|]. split; [exact Hbuf|].
  injection Hsd as <-. exact Hrd.
Defined.

Lemma lookup_of_unknown_sender_panics_witness :
  @HandleCandidate willing "c" "X" "me" offering = (offering, Panic).
Proof.
  assert (Hmissing : peers (cm offering) !! "X"%string = None) by (vm_compute; reflexivity).
  exact (proj1 (proj2 (@lookup_of_unknown_sender_panics willing
                         "c" "X" "me" offering Hmissing))).
Defined.

Lemma send_failure_is_never_reported_witness :
  let out' := @SendMessageUnicast mute "hi" "R" established in
  s_err <$> sent out'.1 = [Some "io: read/write on closed pipe"%string] ∧
  out'.2 = Ret nil.
Proof.
  assert (Hmarshal : @json_Marshal_wrapped mute (mac (cm established)) "hi"
                     = inl "me:hi"%string) by reflexivity.
  assert (Hpeer : ∃ key, key ≠ mac (cm established) ∧
                         is_Some (peers (cm established) !! key)).
  { exists "R"%string. split; [vm_compute; discriminate | vm_compute; eexists; reflexivity]. }
  destruct (@send_failure_is_never_reported mute plain_range
              "hi" "me:hi" established Hmarshal Hpeer) as (_ & _ & _ & Hunicast).
  destruct (peers (cm established) !! "R"%string) as [p|] eqn:Hp;
    [|vm_compute in Hp; discriminate].
  assert (Hdc : channel p = Some (mkDC 0)).
  { vm_compute in Hp. injection Hp as <-. reflexivity. }
  destruct (Hunicast "R"%string p (mkDC 0) Hp Hdc) as [Hsent Hres].
  split; [|exact Hres].
  rewrite Hsent. vm_compute. reflexivity.
Defined.

Lemma candidate_is_buffered_and_applied_when_described_witness :
  let out := @HandleCandidate willing "c1" "R" "me" offering in
  ∃ p', peers (cm out.1) !! "R"%string = Some p' ∧ candidates p' = ["c1"%string].
Proof.
  intros out.
  destruct (peers (cm offering) !! "R"%string) as [p|] eqn:Hp;
    [|vm_compute in Hp; discriminate].
  destruct (@candidate_is_buffered_and_applied_when_described willing
              "c1" "R" "me" offering p Hp) as (p' & Hp' & _ & _ & Hcase).
  exists p'. split; [exact Hp'|].
  vm_compute in Hp. injection Hp as <-. simpl in Hcase.
  destruct Hcase as (_ & Hbuf & _). exact Hbuf.
Defined.

Lemma early_candidates_queue_in_arrival_order_witness :
  let w' := @run reliable willing
              [Candidate "c1" "R" "me"; Candidate "c2" "R" "me"] offering in
  candidates <$> peers (cm w') !! "R"%string = Some ["c1"; "c2"]%string.
Proof.
  intros w'.
  destruct (peers (cm offering) !! "R"%string) as [p|] eqn:Hp;
    [|vm_compute in Hp; discriminate].
  assert (Hrd : remoteDescription (connection p) = None).
  { vm_compute in Hp. injection Hp as <-. reflexivity. }
  assert (Hqueue : peers (cm w')
                   = <[("R"%string) := {| connection := connection p; channel := channel p;
                                          candidates := candidates p ++ ["c1"; "c2"]%string |}]>
                       (peers (cm offering))).
  { exact (@early_candidates_queue_in_arrival_order reliable willing
             ["c1"; "c2"]%string "R" "me" offering p Hp Hrd). }
  rewrite Hqueue, lookup_insert_eq.
  vm_compute in Hp. injection Hp as <-. reflexivity.
Defined.

Lemma failed_answer_keeps_the_buffer_witness :
  let w := @run reliable willing [Candidate "c1" "R" "me"] offering in
  let out := @HandleAnswer stubborn "a" "R" "me" w in
  wg out.1 = 2 ∧
  ∃ p', peers (cm out.1) !! "R"%string = Some p' ∧ candidates p' = ["c1"%string].
Proof.
  intros w out.
  destruct (peers (cm w) !! "R"%string) as [p|] eqn:Hp;
    [|vm_compute in Hp; discriminate].
  assert (Herr : out.2 = Ret (Some "InvalidStateError"%string)) by (vm_compute; reflexivity).
  destruct (@failed_answer_keeps_the_buffer stubborn "a" "R" "me" "InvalidStateError"
              w p Hp Herr) as (Hwg & p' & Hp' & Hbuf).
  unfold out. split; [rewrite Hwg; vm_compute; reflexivity|].
  exists p'. split; [exact Hp'|]. rewrite Hbuf.
  vm_compute in Hp. injection Hp as <-. reflexivity.
Defined.

Lemma send_without_peers_sends_nothing_witness :
  let out := @SendMessage willing plain_range "hi" (boot (LiveConn 1) "me") in
  sent out.1 = [] ∧ out.2 = Ret nil.
Proof.
  assert (Honly : ∀ key, is_Some (peers (cm (boot (LiveConn 1) "me")) !! key) →
                         key = mac (cm (boot (LiveConn 1) "me"))).
  { intros key [p Hp]. simpl in Hp. by rewrite lookup_empty in Hp. }
  destruct (@send_without_peers_sends_nothing willing plain_range "hi"
              (boot (LiveConn 1) "me") Honly) as (Hsent & _ & Hr).
  split; [exact Hsent | exact Hr].
Defined.

Lemma unicast_after_open_sends_on_the_channel_witness :
  let opened := (@onOpen "R" (mkDC 7) offering).1 in
  let out := @SendMessageUnicast mute "hi" "R" opened in
  s_channel <$> sent out.1 = [mkDC 7] ∧ out.2 = Ret nil.
Proof.
  intros opened out.
  destruct (peers (cm offering) !! "R"%string) as [p|] eqn:Hp;
    [|vm_compute in Hp; discriminate].
  assert (Hmarshal : @json_Marshal_wrapped mute (mac (cm offering)) "hi"
                     = inl "me:hi"%string) by reflexivity.
  destruct (@unicast_after_open_sends_on_the_channel mute
              "R" "hi" "me:hi" (mkDC 7) offering p Hp Hmarshal) as (_ & _ & Hsent & Hr).
  split; [|exact Hr].
  fold opened in Hsent. fold out in Hsent. rewrite Hsent. vm_compute. reflexivity.
Defined.

Lemma unicast_without_channel_panics_witness :
  @SendMessageUnicast willing "hi" "R" offering = (offering, Panic).
Proof.
  assert (Hmarshal : @json_Marshal_wrapped willing (mac (cm offering)) "hi"
                     = inl "me:hi"%string) by reflexivity.
  assert (Hclosed : channel <$> peers (cm offering) !! "R"%string = Some None)
    by (vm_compute; reflexivity).
  exact (proj1 (@unicast_without_channel_panics willing "R" "hi" "me:hi" (mkDC 0)
                  offering Hmarshal (or_intror Hclosed))).
Defined.

Lemma peer_entries_are_never_removed_witness :
  is_Some (peers (cm (@run reliable willing
                        [Resignation "R"; Candidate "c" "R" "me"; Offer "o" "Q" "me"]
                        offering)) !! "R"%string).
Proof.
  assert (Hkey : is_Some (peers (cm offering) !! "R"%string)).
  { vm_compute. eexists. reflexivity. }
  exact (@peer_entries_are_never_removed reliable willing _ offering "R" Hkey).
Defined.

(** C8 as the specification states it fails: after the dispatch of
    Resignation("R") the entry of "R", with its connection and its
    buffer, is still in the peer map. *)
Lemma resignation_keeps_the_peer_entry :
  is_Some (peers (cm offering) !! "R"%string) ∧
  peers (cm (@dispatch reliable willing (Resignation "R") offering).1) !! "R"%string
  = peers (cm offering) !! "R"%string.
Proof. split; [vm_compute; eexists; reflexivity | reflexivity]. Qed.

End ClientSpec.

Module ClientTests.
Import Client.

Example offering_state :
  wg offering = 2 ∧ mac (cm offering) = "me"%string ∧
  w_msg <$> wire offering = [Ready "me"; Offer "offer" "me" "R"; Offer "offer" "me" "Q"].
Proof. vm_compute. done. Qed.

Example established_state :
  (λ p, (remoteDescription (connection p), channel p, candidates p))
    <$> peers (cm established) !! "R"%string
  = Some (Some "a"%string, Some (mkDC 0), []).
Proof. vm_compute. done. Qed.
End ClientTests.
